(** * streamdal/cli: the action dispatcher, the peek loop and the search
      highlighter of [cmd/cmd.go], with the dialogs of the console package.

    The development follows the Go source function by function.  Go strings
    are byte sequences and are embedded as [string]; the dialogs, the clock
    and the data producer are the outside world and appear as explicit
    scripts that the handlers consume. *)

From Stdlib Require Import String Ascii List Bool Arith Lia ZArith DecimalString.
Import ListNotations.
Open Scope string_scope.

(* ================================================================== *)
(** ** The functions of Go's [strings] package that the program calls *)
(* ================================================================== *)

Module GoStrings.

(** [s[n:]], clamped at the end of [s]. *)
Fixpoint drop (n : nat) (s : string) : string :=
  match n, s with
  | S n', String _ s' => drop n' s'
  | _, _ => s
  end.

(** [strings.Contains(s, substr)]: some suffix of [s] starts with [substr];
    the empty string is contained in every string. *)
Fixpoint Contains (s substr : string) : bool :=
  prefix substr s ||
  match s with
  | EmptyString => false
  | String _ s' => Contains s' substr
  end.

(** The scan of [strings.Replace(s, old, new, -1)] for a non-empty [old]:
    left to right, every occurrence found is replaced and the scan resumes
    right after it, so that occurrences never overlap. *)
Fixpoint replaceLoop (fuel : nat) (old new s : string) : string :=
  match fuel, s with
  | S fuel', String c s' =>
      if prefix old s
      then new ++ replaceLoop fuel' old new (drop (String.length old) s)
      else String c (replaceLoop fuel' old new s')
  | _, _ => s
  end.

(** With an empty [old], Go inserts [new] before every rune and at the end.
    No call in [cmd.go] or in the console passes an empty pattern (each one
    is guarded, or builds the pattern around a literal); the case is written
    out per byte, which is Go's result on ASCII text. *)
Fixpoint insertEach (new s : string) : string :=
  match s with
  | EmptyString => new
  | String c s' => new ++ String c (insertEach new s')
  end.

(** [strings.Replace(s, old, new, -1)]. *)
Definition Replace (s old new : string) : string :=
  match old with
  | EmptyString => insertEach new s
  | _ => replaceLoop (String.length s) old new s
  end.

(** The text before and after the first [sep] of [s], if there is one. *)
Fixpoint cut (sep : ascii) (s : string) : option (string * string) :=
  match s with
  | EmptyString => None
  | String c s' =>
      if Ascii.eqb c sep then Some (EmptyString, s')
      else match cut sep s' with
           | Some (a, b) => Some (String c a, b)
           | None => None
           end
  end.

(** [strings.SplitN(s, sep, n)] for the one-byte separators the program
    uses: at most [n] pieces, the last one being the unsplit remainder. *)
Fixpoint SplitN (s : string) (sep : ascii) (n : nat) : list string :=
  match n with
  | 0 => []
  | S n' =>
      match n' with
      | 0 => [s]
      | S _ =>
          match cut sep s with
          | None => [s]
          | Some (a, r) => a :: SplitN r sep n'
          end
      end
  end.

(** [strings.Split(s, sep)] for a one-byte separator: one piece more than
    there are separators; the pieces of the empty string are [[""]]. *)
Fixpoint Split (s : string) (sep : ascii) : list string :=
  match s with
  | EmptyString => [EmptyString]
  | String c s' =>
      if Ascii.eqb c sep then EmptyString :: Split s' sep
      else match Split s' sep with
           | h :: t => String c h :: t
           | [] => [String c EmptyString]
           end
  end.

(** [strings.Repeat(s, n)]. *)
Fixpoint Repeat (s : string) (n : nat) : string :=
  match n with
  | 0 => EmptyString
  | S n' => s ++ Repeat s n'
  end.

(** A byte occurs in a string. *)
Fixpoint occurs (c : ascii) (s : string) : bool :=
  match s with
  | EmptyString => false
  | String d s' => Ascii.eqb d c || occurs c s'
  end.

End GoStrings.
Import GoStrings.

Definition space : ascii := " "%char.
Definition newline : ascii := "010"%char.
Definition nl : string := String newline EmptyString.
Definition sp : string := String space EmptyString.

(* ================================================================== *)
(** ** The search highlighter of [peek] (cmd.go, lines 464-511)        *)
(* ================================================================== *)

(** [fmt.Sprintf(SearchHighlightFmt, term)] with
    [SearchHighlightFmt = "[blue:gray]%s[-:-]"]. *)
Definition SearchHighlightFmt (term : string) : string :=
  "[blue:gray]" ++ term ++ "[-:-]".

(** Lines 490-494: clear the highlight of the previous search. *)
Definition clearPrev (prev content : string) : string :=
  if negb (prev =? EmptyString) && Contains content (SearchHighlightFmt prev)
  then Replace content (SearchHighlightFmt prev) prev
  else content.

(** Lines 497-502: highlight the new search unless it is already there. *)
Definition markSearch (search content : string) : string :=
  if negb (search =? EmptyString)
     && negb (Contains content (SearchHighlightFmt search))
     && Contains content search
  then Replace content search (SearchHighlightFmt search)
  else content.

(** Lines 487-502: what becomes of [splitLine[2]]. *)
Definition updatedContent (search prev content : string) : string :=
  markSearch search (clearPrev prev content).

(** One iteration of the loop of lines 471-505: the text the line adds to
    [updatedData]. *)
Definition rescanLine (search prev line : string) : string :=
  if line =? EmptyString then EmptyString
  else match SplitN line space 3 with
       | [f0; f1; f2] =>
           f0 ++ sp ++ f1 ++ sp ++ updatedContent search prev f2 ++ nl
       | _ => line ++ nl
       end.

(** Lines 467-505: [updatedData] after the loop over the split text. *)
Definition updatedData (search prev text : string) : string :=
  fold_left (fun acc line => acc ++ rescanLine search prev line)
            (Split text newline) EmptyString.

(** Lines 465-511: the text of the view after the rescan; the view is left
    alone when neither a search nor a previous search is set. *)
Definition rescan (search prev text : string) : string :=
  if negb (search =? EmptyString) || negb (prev =? EmptyString)
  then updatedData search prev text
  else text.

(* ================================================================== *)
(** ** Actions, errors and results                                     *)
(* ================================================================== *)

Module types.

(** Modelled from the spec: the package [types] is not part of the sources
    at hand.  The step constants are the ones [cmd.go] and the console name;
    [StepOther] stands for any other value of the integer type, which [run]
    reports as unknown. *)
Inductive StepType : Type :=
| StepConnect | StepSelect | StepPeek | StepFilter | StepSearch
| StepQuit | StepPause
| StepOther (n : Z).

(** Modelled from the spec: [types.Action] with the fields the program reads
    and writes; a field left out of a Go composite literal is the empty
    string. *)
Record Action : Type := mkAction {
  Step : StepType;
  PeekComponent : string;
  PeekFilter : string;
  PeekSearch : string;
  PeekSearchPrev : string
}.

Definition isPause (s : StepType) : bool :=
  match s with StepPause => true | _ => false end.

End types.
Import types.

(** Errors of [github.com/pkg/errors]: [errors.New] and [errors.Wrap]. *)
Inductive error : Type :=
| errors_New (msg : string)
| errors_Wrap (cause : error) (msg : string).

(** [err.Error()]: a wrapped error prints its message, a colon and its cause. *)
Fixpoint Error (e : error) : string :=
  match e with
  | errors_New msg => msg
  | errors_Wrap cause msg => msg ++ ": " ++ Error cause
  end.

(** What a handler call comes to: the action or the error it
    returns, or no return at all because it waits for input that never
    comes. *)
Inductive result (A : Type) : Type :=
| Ok (a : A)
| Err (e : error)
| Blocked.
Arguments Ok {A} a.
Arguments Err {A} e.
Arguments Blocked {A}.

(** [%d] of a non-negative Go int, and of any int. *)
Definition dec (n : nat) : string := NilZero.string_of_uint (Nat.to_uint n).
Definition decZ (n : Z) : string := NilZero.string_of_int (Z.to_int n).

(* ================================================================== *)
(** ** The console (package console)                                   *)
(* ================================================================== *)

Module console.

Definition dq : string := String "034"%char EmptyString.

(** [MenuString]; the region tags are written with [dq] for the quote. *)
Definition MenuString : string :=
  "Q [" ++ dq ++ "Q" ++ dq ++ "][darkcyan]Quit[white][" ++ dq ++ dq ++ "]  " ++
  "S [" ++ dq ++ "S" ++ dq ++ "][darkcyan]Select Component[white][" ++ dq ++ dq ++ "]  " ++
  "R [" ++ dq ++ "R" ++ dq ++ "][darkcyan]Set Sample Rate[white][" ++ dq ++ dq ++ "]  " ++
  "F [" ++ dq ++ "F" ++ dq ++ "][darkcyan]Filter[white][" ++ dq ++ dq ++ "]  " ++
  "P [" ++ dq ++ "P" ++ dq ++ "][darkcyan]Pause[white][" ++ dq ++ dq ++ "]  " ++
  "/ [" ++ dq ++ "Search" ++ dq ++ "][darkcyan]Search[white][" ++ dq ++ dq ++ "]".

(** A [tview.TextView] as far as the program looks at it: its title, the
    text it holds of what was written to it, and its cap on lines. *)
Record TextView : Type := mkTextView {
  tv_title : string;
  tv_text : string;
  tv_maxLines : nat
}.

(** Pieces put together again with newlines between them. *)
Fixpoint unsplit (pieces : list string) : string :=
  match pieces with
  | [] => EmptyString
  | p :: rest =>
      match rest with
      | [] => p
      | _ :: _ => p ++ String "010"%char (unsplit rest)
      end
  end.

(** Modelled from the spec: the cap on the lines a view retains (the
    scrollback is "bounded by a maximum retained-line count; oldest lines
    evicted first"); the widget itself is not part of the sources.  The
    text is cut down to its last [maxLines] lines and what stands behind
    the last newline; a cap of 0 is no cap. *)
Definition evict (maxLines : nat) (text : string) : string :=
  match maxLines with
  | 0 => text
  | S _ =>
      let pieces := Split text "010"%char in
      unsplit (skipn (List.length pieces - S maxLines) pieces)
  end.

(** What [GetText(false)] gives for a text a view holds: the lines of the
    buffer joined by newlines, with the pending bytes as one more piece,
    which is the text and one more newline; nothing for a view nothing was
    written to. *)
Definition readBack (held : string) : string :=
  if held =? EmptyString then EmptyString
  else held ++ String "010"%char EmptyString.

Definition NewTextView : TextView := mkTextView EmptyString EmptyString 0.
Definition SetTitle (tv : TextView) (t : string) : TextView :=
  mkTextView t (tv_text tv) (tv_maxLines tv).
Definition SetMaxLines (tv : TextView) (maxLines : nat) : TextView :=
  mkTextView (tv_title tv) (tv_text tv) maxLines.
Definition GetText (tv : TextView) : string := readBack (tv_text tv).
Definition SetText (tv : TextView) (t : string) : TextView :=
  mkTextView (tv_title tv) (evict (tv_maxLines tv) t) (tv_maxLines tv).
Definition Fprint (tv : TextView) (s : string) : TextView :=
  mkTextView (tv_title tv) (evict (tv_maxLines tv) (tv_text tv ++ s))
             (tv_maxLines tv).

(** [toggleMenuEntry]: the new text of the menu, from the text the menu
    view holds; line 103 reads it back with [GetText(false)]. *)
Definition toggleMenuEntry (menu text : string) (on : bool) : string :=
  let menu := readBack menu in
  let replaceOld :=
    if negb on then "[lightcyan]" ++ text ++ "[-]" else "[darkcyan]" ++ text in
  let replaceNew :=
    if negb on then "[darkcyan]" ++ text else "[lightcyan]" ++ text ++ "[-]" in
  Replace menu replaceOld replaceNew.

Definition SetMenuEntryOn (menu item : string) : string :=
  toggleMenuEntry menu item true.
Definition SetMenuEntryOff (menu item : string) : string :=
  toggleMenuEntry menu item false.

(** The buttons of the filter and search forms. *)
Inductive Button : Type := OK | Reset | Cancel.

(** What the user does with a form: the successive texts of the input field
    (one call of the change callback each), then one button. *)
Record FormInput : Type := mkFormInput {
  edits : list string;
  button : Button
}.

(** The variables [hit] and [input] of the form once the edits are done. *)
Definition afterEdits (es : list string) : bool * string :=
  fold_left (fun _ text => (true, text)) es (false, EmptyString).

(** [DisplayFilter]: the string sent on [answerCh]. *)
Definition DisplayFilter (defaultValue : string) (ui : FormInput) : string :=
  let '(hit, input) := afterEdits (edits ui) in
  match button ui with
  | OK => if negb hit then defaultValue else input
  | Reset => EmptyString
  | Cancel => defaultValue
  end.

(** [DisplaySearch]: the same form under another title. *)
Definition DisplaySearch (defaultValue : string) (ui : FormInput) : string :=
  let '(hit, input) := afterEdits (edits ui) in
  match button ui with
  | OK => if negb hit then defaultValue else input
  | Reset => EmptyString
  | Cancel => defaultValue
  end.

(** [DisplayRetryModal]: the boolean sent on [answerCh] by the done
    function, which tview calls with the index of the button pressed, or a
    negative index on Escape. *)
Definition DisplayRetryModal (buttonIndex : Z) : bool :=
  if Z.eqb buttonIndex 0 then true else false.

(** The input capture [DisplayPeek] installs: the action a key sends on
    [actionCh], if it sends one. *)
Definition keyAction (title : string) (k : ascii) : option Action :=
  if Ascii.eqb k "q" then
    Some (mkAction StepQuit EmptyString EmptyString EmptyString EmptyString)
  else if Ascii.eqb k "s" then
    Some (mkAction StepSelect EmptyString EmptyString EmptyString EmptyString)
  else if Ascii.eqb k "p" then
    Some (mkAction StepPause EmptyString EmptyString EmptyString EmptyString)
  else if Ascii.eqb k "f" then
    Some (mkAction StepFilter title EmptyString EmptyString EmptyString)
  else if Ascii.eqb k "/" then
    Some (mkAction StepSearch title EmptyString EmptyString EmptyString)
  else None.

(** [DisplayPeek]: a fresh view with the cap of the configuration when none
    is passed, and the title is always updated. *)
Definition DisplayPeek (pagePeek : option TextView) (title : string)
           (maxOutputLines : nat) : TextView :=
  match pagePeek with
  | None => SetTitle (SetMaxLines NewTextView maxOutputLines) title
  | Some tv => SetTitle tv title
  end.

End console.
Import console.

(* ================================================================== *)
(** ** The command object and the outside world                        *)
(* ================================================================== *)

(** The fields of [Cmd] that change while the program runs, and the one
    setting of its options that the views depend on.  [api] tells whether
    [c.api] has been set; [menu] is the text the menu view of
    [options.Console] holds; [maxOutputLines] is
    [options.Config.MaxOutputLines].  The logger and the key capture take
    no part in what follows. *)
Record Cmd : Type := mkCmd {
  api : bool;
  textview : option TextView;
  previousSearch : string;
  paused : bool;
  announceFilter : bool;
  menu : string;
  maxOutputLines : nat
}.

Definition set_api (c : Cmd) (b : bool) : Cmd :=
  mkCmd b (textview c) (previousSearch c) (paused c) (announceFilter c) (menu c)
        (maxOutputLines c).
Definition set_textview (c : Cmd) (tv : option TextView) : Cmd :=
  mkCmd (api c) tv (previousSearch c) (paused c) (announceFilter c) (menu c)
        (maxOutputLines c).
Definition set_paused (c : Cmd) (b : bool) : Cmd :=
  mkCmd (api c) (textview c) (previousSearch c) b (announceFilter c) (menu c)
        (maxOutputLines c).
Definition set_announceFilter (c : Cmd) (b : bool) : Cmd :=
  mkCmd (api c) (textview c) (previousSearch c) (paused c) b (menu c)
        (maxOutputLines c).
Definition set_menu (c : Cmd) (m : string) : Cmd :=
  mkCmd (api c) (textview c) (previousSearch c) (paused c) (announceFilter c) m
        (maxOutputLines c).

(** [New] for a configuration with the given cap on the lines of the peek
    view: the command object before [Run]. *)
Definition NewWith (maxLines : nat) : Cmd :=
  mkCmd false None EmptyString false false MenuString maxLines.

(** The command object of a configuration without a cap. *)
Definition New : Cmd := NewWith 0.

(** What the consumer loop of [peek] can receive or see happen: a key
    pressed in the peek view; the line on [dataCh] that the producer
    goroutine formatted when the counter it shares with the loop stood at
    [n]; or the producer advancing that counter (line 460), which it does
    on its own clock.  [now] is [time.Now().Format("15:04:05")] at that
    moment. *)
Inductive PeekEvent : Type :=
| KeyPress (k : ascii) (now : string)
| DataLine (n : nat) (now : string)
| Advance.

(** What the outside world does during one call of a handler; each handler
    reads the fields that concern it.
    - [api_New], [api_Test]: the errors of [api.New] and of [a.Test(ctx)];
    - [api_GetAllLiveAudiences]: the error of the fetch of [actionSelect];
    - [userQuit]: the variable of that name when the handler reads it, that
      is, whether the user has pressed Cancel on the spinner by then;
    - [retryButton]: the button index the retry modal reports;
    - [picked]: the component chosen in the list, or [None] for the key q;
    - [form]: what the user does with the filter or search form;
    - [now], [events]: the time on entry of [peek] and what its loop
      receives. *)
Record Script : Type := mkScript {
  api_New : option error;
  api_Test : option error;
  api_GetAllLiveAudiences : option error;
  userQuit : bool;
  retryButton : Z;
  picked : option string;
  form : FormInput;
  now : string;
  events : list PeekEvent
}.

Definition justStep (s : StepType) : Action :=
  mkAction s EmptyString EmptyString EmptyString EmptyString.

(** A handler that has come to the point where it needs the outside world:
    with no script left it waits for ever. *)
Definition await {A : Type} (sc : option Script) (c : Cmd)
           (k : Script -> result A * Cmd) : result A * Cmd :=
  match sc with
  | None => (Blocked, c)
  | Some s => k s
  end.

(** The filler of the banner lines: [strings.Repeat("░", 16)]. *)
Definition shade : string := Repeat "░" 16.

(* ================================================================== *)
(** ** The handlers of [cmd.go]                                        *)
(* ================================================================== *)

(** [actionFilter] (lines 103-139). *)
Definition actionFilter (sc : option Script) (c : Cmd) (action : Action)
  : result Action * Cmd :=
  await sc c (fun sc =>
  let filterStr := DisplayFilter (PeekFilter action) (form sc) in
  let c1 :=
    if negb (filterStr =? EmptyString)
    then set_menu c (SetMenuEntryOn (menu c) "Filter")
    else set_menu c (SetMenuEntryOff (menu c) "Filter") in
  let c2 := set_announceFilter c1 true in
  (Ok (mkAction StepPeek (PeekComponent action) filterStr
                EmptyString EmptyString), c2)).

(** [actionSearch] (lines 141-176). *)
Definition actionSearch (sc : option Script) (c : Cmd) (action : Action)
  : result Action * Cmd :=
  await sc c (fun sc =>
  let searchStr := DisplaySearch (PeekSearch action) (form sc) in
  let c1 :=
    if negb (searchStr =? EmptyString)
    then set_menu c (SetMenuEntryOn (menu c) "Search")
    else set_menu c (SetMenuEntryOff (menu c) "Search") in
  (Ok (mkAction StepPeek (PeekComponent action) EmptyString
                searchStr (PeekSearch action)), c1)).

(** [connect] (lines 388-413): the error it returns, and [c.api] set on
    success. *)
Definition connect (sc : Script) (c : Cmd) : option error * Cmd :=
  match api_New sc with
  | Some err => (Some (errors_Wrap err "unable to create server client"), c)
  | None =>
      match api_Test sc with
      | Some err =>
          (Some (errors_Wrap err "unable to complete connection test"), c)
      | None => (None, set_api c true)
      end
  end.

(** [actionConnect] (lines 178-234). *)
Definition actionConnect (sc : option Script) (c : Cmd) (_ : Action)
  : result Action * Cmd :=
  await sc c (fun sc =>
  match connect sc c with
  | (Some err, c1) =>
      let retry := DisplayRetryModal (retryButton sc) in
      if retry then (Ok (justStep StepConnect), c1)
      else (Ok (justStep StepQuit), c1)
  | (None, c1) =>
      if userQuit sc then (Ok (justStep StepQuit), c1)
      else (Ok (justStep StepSelect), c1)
  end).

(** [actionSelect] (lines 236-341). *)
Definition actionSelect (sc : option Script) (c : Cmd) (_ : Action)
  : result Action * Cmd :=
  await sc c (fun sc =>
  match api_GetAllLiveAudiences sc with
  | Some err =>
      let retry := DisplayRetryModal (retryButton sc) in
      if retry then (Ok (justStep StepSelect), c)
      else (Ok (justStep StepQuit), c)
  | None =>
      if userQuit sc then (Ok (justStep StepQuit), c)
      else match picked sc with
           | None => (Ok (justStep StepQuit), c)
           | Some component =>
               (Ok (mkAction StepPeek component EmptyString
                             EmptyString EmptyString), c)
           end
  end).

(** Lines 569-574: the search highlight a new line gets before it is
    written. *)
Definition highlightNew (search data : string) : string :=
  if negb (search =? EmptyString)
  then if Contains data search
       then Replace data search (SearchHighlightFmt search)
       else data
  else data.

(** Lines 443-444: the banner of a new filter, before [fmt.Fprintf] takes
    it as its format. *)
Definition filterLine (filter now : string) : string :=
  let filterStatus := " Filter set to '" ++ filter ++ "' @ " ++ now in
  "[gray:black]" ++ shade ++ filterStatus ++ shade ++ "[-:-]".

Section Peek.

(** [fmt]'s rendering of a format string that comes without operands, as in
    [fmt.Fprintf(textView, filterLine+"\n")]: the identity on a text without
    a percent sign, and left open otherwise. *)
Variable Sprintf0 : string -> string.

(** Lines 540-546: the banner of a pause or of a resume. *)
Definition pauseLine (isPaused : bool) (now : string) : string :=
  let pausedStatus :=
    if negb isPaused then " RESUMED @ " ++ now else " PAUSED @ " ++ now in
  "[gray:black]" ++ shade ++ pausedStatus ++ shade ++ "[-:-]".

(** Lines 529-548: what a Pause command does to the command object and to
    the view. *)
Definition pauseCommand (c : Cmd) (textView : TextView) (now : string)
  : Cmd * TextView :=
  let c1 := set_paused c (negb (paused c)) in
  let c2 :=
    if paused c1 then set_menu c1 (SetMenuEntryOn (menu c1) "Pause")
    else set_menu c1 (SetMenuEntryOff (menu c1) "Pause") in
  (c2, Fprint textView (pauseLine (paused c2) now ++ nl)).

(** Lines 551-554: the settings put back on the command. *)
Definition reinject (cmd action : Action) : Action :=
  mkAction (Step cmd) (PeekComponent action) (PeekFilter action)
           (PeekSearch action) (PeekSearchPrev action).

(** Lines 557-582: a line of the producer arrives.  The producer formatted
    it (line 458) when the counter stood at [n]; the loop reads the counter
    again for the prefix (line 576) and finds [i], which is what the
    producer has made of it by then. *)
Definition dataLine (action : Action) (n i : nat) (textView : TextView)
           (now : string) : TextView :=
  let data := PeekComponent action ++ ": line " ++ dec n in
  if negb (Contains data (PeekFilter action)) then textView
  else
    let data1 :=
      if negb (PeekFilter action =? EmptyString)
      then Replace data (PeekFilter action)
                   ("[green:gray]" ++ PeekFilter action ++ "[-:-]")
      else data in
    let data2 := highlightNew (PeekSearch action) data1 in
    let prefix := dec i ++ ": [gray:black]" ++ now ++ "[-:-] " in
    Fprint textView (prefix ++ data2 ++ nl).

(** The [for]/[select] of lines 522-584, with [i] the present value of the
    counter of line 437.  The loop goes on at a line and at a key that
    sends no command; it is left at the first command.  When nothing more
    arrives the [select] waits for ever. *)
Fixpoint peekLoop (action : Action) (evs : list PeekEvent) (i : nat)
         (c : Cmd) (textView : TextView) : result Action * Cmd * TextView :=
  match evs with
  | [] => (Blocked, c, textView)
  | KeyPress k now :: rest =>
      match keyAction (tv_title textView) k with
      | None => peekLoop action rest i c textView
      | Some cmd =>
          let '(c1, tv1) :=
            if isPause (Step cmd) then pauseCommand c textView now
            else (c, textView) in
          (Ok (reinject cmd action), c1, tv1)
      end
  | DataLine n now :: rest =>
      peekLoop action rest i c (dataLine action n i textView now)
  | Advance :: rest => peekLoop action rest (S i) c textView
  end.

(** Lines 442-448: the one banner after a filter round trip. *)
Definition announce (action : Action) (c : Cmd) (textView : TextView)
           (now : string) : Cmd * TextView :=
  if announceFilter c then
    (set_announceFilter c false,
     Fprint textView (Sprintf0 (filterLine (PeekFilter action) now ++ nl)))
  else (c, textView).

(** [peek] (lines 428-585).  The time of entry comes with the script; with
    no script left nothing more is known of the outside world and the call
    is taken to wait. *)
Definition peek (sc : option Script) (c : Cmd) (action : option Action)
           (textView : TextView) : result Action * Cmd * TextView :=
  match action with
  | None => (Err (errors_New "action cannot be nil"), c, textView)
  | Some action =>
      if PeekComponent action =? EmptyString then
        (Err (errors_New "peek(): bug? *Action.PeekComponent cannot be empty"),
         c, textView)
      else
        match sc with
        | None => (Blocked, c, textView)
        | Some sc =>
            let '(c1, tv1) := announce action c textView (now sc) in
            let tv2 :=
              if negb (PeekSearch action =? EmptyString)
                 || negb (PeekSearchPrev action =? EmptyString)
              then SetText tv1 (updatedData (PeekSearch action)
                                            (PeekSearchPrev action)
                                            (GetText tv1))
              else tv1 in
            peekLoop action (events sc) 1 c1 tv2
        end
  end.

(** [actionPeek] (lines 358-385); the view is the one object that
    [c.textview] and the parameter of [peek] both name. *)
Definition actionPeek (sc : option Script) (c : Cmd) (action : option Action)
  : result Action * Cmd :=
  match action with
  | None => (Err (errors_New "action cannot be nil"), c)
  | Some a =>
      if PeekComponent a =? EmptyString then
        (Err (errors_New "actionPeek(): bug? PeekComponent cannot be empty"), c)
      else
        let tv := DisplayPeek (textview c) (PeekComponent a)
                              (maxOutputLines c) in
        let c1 := set_textview c (Some tv) in
        match peek sc c1 action tv with
        | (Err err, c2, tv2) =>
            (Err (errors_Wrap err "unable to peek"), set_textview c2 (Some tv2))
        | (respAction, c2, tv2) => (respAction, set_textview c2 (Some tv2))
        end
  end.

(* ================================================================== *)
(** ** The dispatcher [run] (lines 67-99)                              *)
(* ================================================================== *)

(** The three ways out of the [switch] of [run]: a handler is called, the
    process exits, or the step is unknown. *)
Inductive Switch : Type :=
| Handler (h : option Script -> Cmd -> result Action * Cmd)
| OsExit (code : Z)
| Unknown (err : error).

Definition switch (action : Action) : Switch :=
  match Step action with
  | StepConnect => Handler (fun sc c => actionConnect sc c action)
  | StepSelect => Handler (fun sc c => actionSelect sc c action)
  | StepPeek => Handler (fun sc c => actionPeek sc c (Some action))
  | StepFilter => Handler (fun sc c => actionFilter sc c action)
  | StepSearch => Handler (fun sc c => actionSearch sc c action)
  | StepQuit => OsExit 0
  | StepPause => Handler (fun sc c => actionPeek sc c (Some action))
  | StepOther n => Unknown (errors_New ("unknown action step: " ++ decZ n))
  end.

(** How a run of the program ends: the process exits, [Run] returns an
    error, or the program waits for input that does not come. *)
Inductive Outcome : Type :=
| Exited (code : Z)
| Failed (err : error)
| Waiting.

(** A run: how it ends, the command object at that point, and the calls of
    [run] in order, each with the step it was given and the number of
    [run] frames on the Go stack while it executes. *)
Record Trace : Type := mkTrace {
  outcome : Outcome;
  final : Cmd;
  calls : list (nat * StepType)
}.

(** [run]: the step is dispatched, an error is wrapped and returned, and
    otherwise [run] calls itself on the action the handler returned
    ([return c.run(resp)]); the call is made from inside the current frame,
    so the callee runs one frame deeper.  [world] scripts the successive
    handler calls; when it is used up, a handler that needs the outside
    world waits. *)
Fixpoint run (world : list Script) (depth : nat) (c : Cmd) (action : Action)
  : Trace :=
  let here := (depth, Step action) in
  match switch action with
  | OsExit code => mkTrace (Exited code) c [here]
  | Unknown err =>
      mkTrace (Failed (errors_Wrap err "unable to run action")) c [here]
  | Handler h =>
      match world with
      | [] =>
          match h None c with
          | (Err err, c1) =>
              mkTrace (Failed (errors_Wrap err "unable to run action")) c1 [here]
          | (_, c1) => mkTrace Waiting c1 [here]
          end
      | sc :: world' =>
          match h (Some sc) c with
          | (Err err, c1) =>
              mkTrace (Failed (errors_Wrap err "unable to run action")) c1 [here]
          | (Blocked, c1) => mkTrace Waiting c1 [here]
          | (Ok resp, c1) =>
              let rest := run world' (S depth) c1 resp in
              mkTrace (outcome rest) (final rest) (here :: calls rest)
          end
      end
  end.

(** [Run]: the entry point starts with a connection attempt; its call of
    [run] is the first frame. *)
Definition Run (world : list Script) (c : Cmd) : Trace :=
  run world 1 c (justStep StepConnect).

End Peek.

(* ================================================================== *)
(** ** Notions the statements use                                      *)
(* ================================================================== *)

(** The proper ends of a string, from the longest to the empty one. *)
Fixpoint ends (s : string) : list string :=
  match s with
  | EmptyString => []
  | String _ s' => s' :: ends s'
  end.

(** A marker overlaps itself when one of its proper, non-empty ends is also
    one of its beginnings; two occurrences of such a marker can share
    bytes. *)
Definition overlapsItself (w : string) : bool :=
  existsb (fun x => negb (x =? EmptyString) && prefix x w) (ends w).

(** The content fields of a text: the third field of every non-empty line
    that has one (the lines [rescanLine] rewrites). *)
Definition contentOf (line : string) : list string :=
  if line =? EmptyString then []
  else match SplitN line space 3 with
       | [_; _; f2] => [f2]
       | _ => []
       end.

Definition contents (text : string) : list string :=
  flat_map contentOf (Split text newline).

(** A line as [rescanLine] rewrites it, without the newline it adds. *)
Definition rewritten (search prev line : string) : string :=
  match SplitN line space 3 with
  | [f0; f1; f2] => f0 ++ sp ++ f1 ++ sp ++ updatedContent search prev f2
  | _ => line
  end.

(** A content field on which a second rescan has nothing left to do: no
    previous search is set; or the first rescan leaves no marker of the
    previous search in it; or the search is the previous search (the search
    form was cancelled), its marker cannot overlap itself and clearing it
    leaves none behind. *)
Definition settled (search prev content : string) : bool :=
  (prev =? EmptyString)
  || negb (Contains (updatedContent search prev content)
                    (SearchHighlightFmt prev))
  || ((search =? prev)
      && negb (overlapsItself (SearchHighlightFmt prev))
      && negb (Contains (clearPrev prev content) (SearchHighlightFmt prev))).

(** Scripts for the scenarios: a world in which nothing goes wrong and
    nobody touches anything, and the ways in which it can differ. *)
Definition quiet : Script :=
  mkScript None None None false 0 None (mkFormInput [] Cancel) EmptyString [].

(** The connection test fails and the user presses Retry. *)
Definition refused : Script :=
  mkScript None (Some (errors_New "connection refused")) None false 0 None
           (mkFormInput [] Cancel) EmptyString [].

(** The user picks a component in the list. *)
Definition picking (component : string) : Script :=
  mkScript None None None false 0 (Some component) (mkFormInput [] Cancel)
           EmptyString [].

(** [peek] is entered at [t] and receives [evs]. *)
Definition peeking (t : string) (evs : list PeekEvent) : Script :=
  mkScript None None None false 0 None (mkFormInput [] Cancel) t evs.

(** The user fills in a form. *)
Definition answering (es : list string) (b : Button) : Script :=
  mkScript None None None false 0 None (mkFormInput es b) EmptyString [].

(** The connection attempt succeeds: [connect] returns no error. *)
Definition connects (sc : Script) : bool :=
  match api_New sc, api_Test sc with
  | None, None => true
  | _, _ => false
  end.

Definition isConnect (s : StepType) : bool :=
  match s with StepConnect => true | _ => false end.

(** The steps a run goes through. *)
Definition steps (t : Trace) : list StepType := map snd (calls t).

(** The lines the loop does not skip, and a line with its newline. *)
Definition nonempty (l : string) : bool := negb (l =? EmptyString).

Definition withNewline (l : string) : string := l ++ nl.

(** The concatenation of a list of strings. *)
Definition concat (l : list string) : string :=
  fold_right append EmptyString l.

(* ================================================================== *)
(** ** More of the console: the spinner and the select list            *)
(* ================================================================== *)

(** The frames of the spinner of [DisplayInfoModal] (line 331). *)
Definition animationElements : list string :=
  ["⠋"; "⠙"; "⠹"; "⠸"; "⠼"; "⠴"; "⠦"; "⠧"; "⠇"; "⠏"].

(** What the animation goroutine of [DisplayInfoModal] receives: a tick of
    its ticker, or the word on [inputCh] that the modal can be closed. *)
Inductive SpinEvent : Type := Tick | Told.

(** The loop [MAIN] of [DisplayInfoModal] (lines 338-355), started with
    [iter = 0]: the texts it sets on the modal, one per tick, or [None] when
    [animationElements[iter]] is out of range, which makes Go panic.  The
    update queued with [QueueUpdateDraw] has run when the call returns, so
    it reads [iter] before the increment.  [msg] is the message with the
    blank line 317 adds. *)
Fixpoint animate (msg : string) (evs : list SpinEvent) (iter : nat)
  : option (list string) :=
  match evs with
  | [] => Some []
  | Told :: _ => Some []
  | Tick :: rest =>
      let iter1 :=
        if Nat.eqb iter (List.length animationElements) then 0 else iter in
      match nth_error animationElements iter1 with
      | None => None
      | Some frame =>
          option_map (cons (msg ++ "[gray]" ++ frame ++ "[white]"))
                     (animate msg rest (iter1 + 1))
      end
  end.

Definition DisplayInfoModal (msg : string) (evs : list SpinEvent)
  : option (list string) :=
  animate (msg ++ " ") evs 0.

(** The ticks the animation sees before it is told to stop. *)
Fixpoint ticks (evs : list SpinEvent) : nat :=
  match evs with
  | Tick :: rest => S (ticks rest)
  | _ => 0
  end.

(** The shortcut runes of [DisplaySelectList] (line 411). *)
Definition shortcuts : list ascii :=
  ["1"; "2"; "3"; "4"; "5"; "6"; "7"; "8"; "9"]%char.

(** An item of the select list: its name, its description, its shortcut;
    selecting it sends its name on the output channel. *)
Record ListItem : Type := mkListItem {
  item_name : string;
  item_desc : string;
  item_shortcut : ascii
}.

(** The loop of lines 413-430 over the items of the map, in the order in
    which Go happens to range over it. *)
Fixpoint addItems (itemMap : list (string * string)) (i : nat)
  : list ListItem :=
  match itemMap with
  | [] => []
  | (name, desc) :: rest =>
      let shortcut :=
        if Nat.leb (List.length shortcuts) i then "0"%char
        else nth i shortcuts "0"%char in
      mkListItem name desc shortcut :: addItems rest (i + 1)
  end.

(** [DisplaySelectList]: the items of the list it shows. *)
Definition DisplaySelectList (itemMap : list (string * string))
  : list ListItem :=
  addItems itemMap 0.

(** What is sent on the output channel when the item at a position is
    selected. *)
Definition selectItem (items : list ListItem) (k : nat) : option string :=
  option_map item_name (nth_error items k).

(* ================================================================== *)
(** ** More notions for the statements                                 *)
(* ================================================================== *)

(** The steps a handler can hand to [run] after a given step. *)
Definition allowed (a b : StepType) : bool :=
  match a, b with
  | StepConnect, (StepConnect | StepQuit | StepSelect) => true
  | StepSelect, (StepSelect | StepQuit | StepPeek) => true
  | (StepPeek | StepPause),
    (StepQuit | StepSelect | StepPause | StepFilter | StepSearch) => true
  | (StepFilter | StepSearch), StepPeek => true
  | _, _ => false
  end.

(** Every step of a list is allowed after the one before it. *)
Fixpoint follows (l : list StepType) : bool :=
  match l with
  | a :: (b :: _) as rest => allowed a b && follows rest
  | _ => true
  end.

Definition isQuit (s : StepType) : bool :=
  match s with StepQuit => true | _ => false end.

Definition exited (o : Outcome) : bool :=
  match o with Exited _ => true | _ => false end.

(** An action [run] can handle without an error: a known step, with a
    component where the Peek handler asks for one. *)
Definition wellFormed (a : Action) : bool :=
  match Step a with
  | StepConnect | StepSelect | StepQuit => true
  | StepPeek | StepPause | StepFilter | StepSearch =>
      negb (PeekComponent a =? EmptyString)
  | StepOther _ => false
  end.

(** The error [run] returns for a Peek action without a component. *)
Definition emptyComponentError : error :=
  errors_Wrap (errors_New "actionPeek(): bug? PeekComponent cannot be empty")
              "unable to run action".

Definition picksNothing (sc : Script) : bool :=
  match picked sc with
  | Some component => component =? EmptyString
  | None => false
  end.

(** The first command the keys of a list of events send. *)
Fixpoint firstCommand (title : string) (evs : list PeekEvent) : option Action :=
  match evs with
  | [] => None
  | KeyPress k _ :: rest =>
      match keyAction title k with
      | Some cmd => Some cmd
      | None => firstCommand title rest
      end
  | DataLine _ _ :: rest => firstCommand title rest
  | Advance :: rest => firstCommand title rest
  end.

(** A menu entry, lit or not, as [toggleMenuEntry] writes it. *)
Definition menuEntry (on : bool) (text : string) : string :=
  if on then "[lightcyan]" ++ text ++ "[-]" else "[darkcyan]" ++ text.

(** The menu with its Filter, Search and Pause entries lit or not. *)
Definition menuState (f s p : bool) : string :=
  "Q [" ++ dq ++ "Q" ++ dq ++ "][darkcyan]Quit[white][" ++ dq ++ dq ++ "]  " ++
  "S [" ++ dq ++ "S" ++ dq ++ "][darkcyan]Select Component[white][" ++ dq ++ dq ++ "]  " ++
  "R [" ++ dq ++ "R" ++ dq ++ "][darkcyan]Set Sample Rate[white][" ++ dq ++ dq ++ "]  " ++
  "F [" ++ dq ++ "F" ++ dq ++ "]" ++ menuEntry f "Filter" ++ "[white][" ++ dq ++ dq ++ "]  " ++
  "P [" ++ dq ++ "P" ++ dq ++ "]" ++ menuEntry p "Pause" ++ "[white][" ++ dq ++ dq ++ "]  " ++
  "/ [" ++ dq ++ "Search" ++ dq ++ "]" ++ menuEntry s "Search" ++ "[white][" ++ dq ++ dq ++ "]".

(** The menu view holds one of these states with some newlines behind it. *)
Definition menuAgrees (c : Cmd) : Prop :=
  exists (f s : bool) (k : nat),
    menu c = menuState f s (paused c) ++ Repeat nl k.

(** The lines among the events of the loop of [peek], each with the count
    the producer formatted, the value of the counter when the loop
    receives it, and the time. *)
Fixpoint stamped (evs : list PeekEvent) (i : nat)
  : list (nat * nat * string) :=
  match evs with
  | [] => []
  | KeyPress _ _ :: rest => stamped rest i
  | DataLine n now :: rest => (n, i, now) :: stamped rest i
  | Advance :: rest => stamped rest (S i)
  end.

(** The line of the producer with the count [n] contains the filter. *)
Definition passes (action : Action) (l : nat * nat * string) : bool :=
  Contains (PeekComponent action ++ ": line " ++ dec (fst (fst l)))
           (PeekFilter action).

(** The data of the line with the count [n], with the filter and the search
    marked in it. *)
Definition decorated (action : Action) (n : nat) : string :=
  let data := PeekComponent action ++ ": line " ++ dec n in
  highlightNew (PeekSearch action)
    (if negb (PeekFilter action =? EmptyString)
     then Replace data (PeekFilter action)
                  ("[green:gray]" ++ PeekFilter action ++ "[-:-]")
     else data).

(** The three fields of a line in the view: the counter with its colon, the
    time in its colour tags, and the data. *)
Definition viewLine (action : Action) (l : nat * nat * string) : string :=
  (dec (snd (fst l)) ++ ":") ++ sp ++ ("[gray:black]" ++ snd l ++ "[-:-]")
  ++ sp ++ decorated action (fst (fst l)).

(** A text that ends a line: nothing, or something with a newline last. *)
Definition endsLine (text : string) : Prop :=
  text = EmptyString \/ exists t, text = t ++ nl.

Definition percent : ascii := "%"%char.

(* ================================================================== *)
(** ** Strings: append, prefix, Contains                               *)
(* ================================================================== *)

Section StringFacts.

Lemma append_nil_r (s : string) : s ++ EmptyString = s.
Proof. induction s as [|c s IH]; simpl; [reflexivity | now rewrite IH]. Qed.

Lemma append_assoc (a b c : string) : (a ++ b) ++ c = a ++ b ++ c.
Proof. induction a as [|x a IH]; simpl; [reflexivity | now rewrite IH]. Qed.

Lemma length_append (a b : string) :
  String.length (a ++ b) = String.length a + String.length b.
Proof. induction a as [|x a IH]; simpl; [reflexivity | now rewrite IH]. Qed.

Lemma append_inv_head (a b c : string) : a ++ b = a ++ c -> b = c.
Proof.
  induction a as [|x a IH]; simpl; intros H; [exact H|].
  injection H as H. auto.
Qed.

Lemma eqb_empty (s : string) : (s =? EmptyString) = true <-> s = EmptyString.
Proof. apply String.eqb_eq. Qed.

Lemma eqb_empty_false (s : string) :
  (s =? EmptyString) = false <-> s <> EmptyString.
Proof. apply String.eqb_neq. Qed.

Lemma prefix_nil (s : string) : prefix EmptyString s = true.
Proof. destruct s; reflexivity. Qed.

Lemma prefix_app (p r : string) : prefix p (p ++ r) = true.
Proof.
  induction p as [|c p IH]; simpl; [apply prefix_nil|].
  destruct (ascii_dec c c) as [_|n]; [exact IH | now elim n].
Qed.

Lemma prefix_inv (p s : string) : prefix p s = true -> exists r, s = p ++ r.
Proof.
  revert s; induction p as [|c p IH]; intros s H.
  - exists s; reflexivity.
  - destruct s as [|d s]; simpl in H; [discriminate|].
    destruct (ascii_dec c d) as [->|_]; [|discriminate].
    destruct (IH _ H) as [r ->]. exists r; reflexivity.
Qed.

Lemma prefix_iff (p s : string) : prefix p s = true <-> exists r, s = p ++ r.
Proof.
  split; [apply prefix_inv | intros [r ->]; apply prefix_app].
Qed.

Lemma drop_app (p r : string) : drop (String.length p) (p ++ r) = r.
Proof. induction p as [|c p IH]; simpl; [now destruct r | exact IH]. Qed.

(** Two ways of cutting one string in two: one cut comes first. *)
Lemma append_eq_append (a b c d : string) :
  a ++ b = c ++ d ->
  (exists k, c = a ++ k /\ b = k ++ d) \/ (exists k, a = c ++ k /\ d = k ++ b).
Proof.
  revert c; induction a as [|x a IH]; intros c H.
  - left; exists c; split; [reflexivity | exact H].
  - destruct c as [|y c].
    + right; exists (String x a); split; [reflexivity | symmetry; exact H].
    + simpl in H; injection H as -> H.
      destruct (IH _ H) as [[k [-> ->]]|[k [-> ->]]].
      * left; exists k; split; reflexivity.
      * right; exists k; split; reflexivity.
Qed.

Lemma Contains_prefix (s x : string) : prefix x s = true -> Contains s x = true.
Proof. intros H; destruct s; cbn [Contains]; rewrite H; reflexivity. Qed.

Lemma Contains_intro (u x v : string) : Contains (u ++ x ++ v) x = true.
Proof.
  induction u as [|c u IH].
  - change (Contains (x ++ v) x = true). apply Contains_prefix. apply prefix_app.
  - change (Contains (String c (u ++ x ++ v)) x = true). cbn [Contains].
    rewrite IH; apply orb_true_r.
Qed.

Lemma Contains_inv (s x : string) :
  Contains s x = true -> exists u v, s = u ++ x ++ v.
Proof.
  induction s as [|c s IH]; cbn [Contains]; intros H.
  - rewrite orb_false_r in H. destruct (prefix_inv _ _ H) as [r ->].
    exists EmptyString, r; reflexivity.
  - apply orb_true_iff in H as [H|H].
    + destruct (prefix_inv _ _ H) as [r ->]. exists EmptyString, r; reflexivity.
    + destruct (IH H) as [u [v ->]]. exists (String c u), v; reflexivity.
Qed.

Lemma Contains_iff (s x : string) :
  Contains s x = true <-> exists u v, s = u ++ x ++ v.
Proof.
  split; [apply Contains_inv | intros [u [v ->]]; apply Contains_intro].
Qed.

Lemma Contains_tail (c : ascii) (s x : string) :
  Contains (String c s) x = false -> Contains s x = false.
Proof. cbn [Contains]; intros H; apply orb_false_iff in H; tauto. Qed.

Lemma Contains_head (c : ascii) (s x : string) :
  Contains (String c s) x = false -> prefix x (String c s) = false.
Proof. cbn [Contains]; intros H; apply orb_false_iff in H; tauto. Qed.

Lemma Contains_app_r (u s x : string) :
  Contains (u ++ s) x = false -> Contains s x = false.
Proof.
  intros H. destruct (Contains s x) eqn:E; [|reflexivity].
  destruct (Contains_inv _ _ E) as [a [b ->]].
  rewrite <- append_assoc, Contains_intro in H. discriminate.
Qed.

Lemma Contains_app_l (s v x : string) :
  Contains (s ++ v) x = false -> Contains s x = false.
Proof.
  intros H. destruct (Contains s x) eqn:E; [|reflexivity].
  destruct (Contains_inv _ _ E) as [a [b ->]].
  rewrite !append_assoc, Contains_intro in H. discriminate.
Qed.

Lemma Contains_trans (s x y : string) :
  Contains s x = true -> Contains x y = true -> Contains s y = true.
Proof.
  intros H1 H2.
  destruct (Contains_inv _ _ H1) as [u [v ->]].
  destruct (Contains_inv _ _ H2) as [a [b ->]].
  rewrite !append_assoc, <- (append_assoc u a), Contains_intro. reflexivity.
Qed.

End StringFacts.

(* ================================================================== *)
(** ** Strings: Replace                                                *)
(* ================================================================== *)

Section ReplaceFacts.

Variables old new : string.
Hypothesis old_nonempty : old <> EmptyString.

Lemma length_drop (n : nat) (s : string) :
  String.length (drop n s) = String.length s - n.
Proof.
  revert s; induction n as [|n IH]; intros [|c s]; simpl; auto.
Qed.

Lemma old_length : 1 <= String.length old.
Proof. destruct old; [now elim old_nonempty | simpl; lia]. Qed.

Lemma prefix_old_nil : prefix old EmptyString = false.
Proof. destruct old; [now elim old_nonempty | reflexivity]. Qed.

(** The scan needs no more fuel than the length of the text. *)
Lemma replaceLoop_fuel (n : nat) :
  forall (s : string) (f1 f2 : nat),
    String.length s <= n -> String.length s <= f1 -> String.length s <= f2 ->
    replaceLoop f1 old new s = replaceLoop f2 old new s.
Proof.
  induction n as [|n IH]; intros s f1 f2 Hn H1 H2.
  - destruct s; [|simpl in Hn; lia]. now destruct f1, f2.
  - destruct s as [|c s]; [now destruct f1, f2|].
    destruct f1 as [|f1]; [simpl in H1; lia|].
    destruct f2 as [|f2]; [simpl in H2; lia|].
    cbn [replaceLoop]. simpl in Hn, H1, H2.
    destruct (prefix old (String c s)).
    + f_equal. pose proof old_length.
      apply IH; rewrite length_drop; cbn [String.length]; lia.
    + f_equal. apply IH; lia.
Qed.

Lemma Replace_unfold (s : string) :
  Replace s old new = replaceLoop (String.length s) old new s.
Proof. unfold Replace. destruct old; [now elim old_nonempty | reflexivity]. Qed.

Lemma Replace_nil : Replace EmptyString old new = EmptyString.
Proof. rewrite Replace_unfold; reflexivity. Qed.

(** The scan does not stop on an occurrence: the text goes on unchanged. *)
Lemma Replace_miss (c : ascii) (s : string) :
  prefix old (String c s) = false ->
  Replace (String c s) old new = String c (Replace s old new).
Proof.
  intros H. rewrite !Replace_unfold. cbn [String.length replaceLoop].
  rewrite H. reflexivity.
Qed.

(** The scan stops on an occurrence: it is replaced and the scan resumes
    behind it. *)
Lemma Replace_hit (r : string) :
  Replace (old ++ r) old new = new ++ Replace r old new.
Proof.
  rewrite !Replace_unfold.
  destruct (old ++ r) as [|c s] eqn:E.
  - destruct old; [now elim old_nonempty | discriminate].
  - cbn [String.length replaceLoop]. rewrite <- E, prefix_app, drop_app.
    f_equal. apply (replaceLoop_fuel (String.length s)); try lia.
    + assert (L : String.length (old ++ r) = S (String.length s))
        by now rewrite E.
      rewrite length_append in L. pose proof old_length. lia.
    + assert (L : String.length (old ++ r) = S (String.length s))
        by now rewrite E.
      rewrite length_append in L. pose proof old_length. lia.
Qed.

Lemma Replace_absent (s : string) :
  Contains s old = false -> Replace s old new = s.
Proof.
  induction s as [|c s IH]; intros H; [apply Replace_nil|].
  rewrite Replace_miss by (eapply Contains_head; eauto).
  f_equal. apply IH. eapply Contains_tail; eauto.
Qed.

(** How the scan starts: nothing to replace, or a first occurrence behind a
    stretch [u] that has none. *)
Lemma Replace_first (s : string) :
  (Contains s old = false /\ Replace s old new = s) \/
  (exists u rest,
      s = u ++ old ++ rest /\
      Replace s old new = u ++ new ++ Replace rest old new /\
      (prefix old s = false -> u <> EmptyString)).
Proof.
  induction s as [|c s IH].
  - left. split; [|apply Replace_nil]. cbn [Contains].
    now rewrite prefix_old_nil.
  - destruct (prefix old (String c s)) eqn:P.
    + right. destruct (prefix_inv _ _ P) as [r E].
      exists EmptyString, r. rewrite E.
      split; [reflexivity|]. split; [apply Replace_hit|].
      intros H. discriminate.
    + rewrite (Replace_miss _ _ P).
      destruct IH as [[H1 H2]|[u [rest [E [H2 _]]]]].
      * left. split; [|now rewrite H2]. cbn [Contains]. now rewrite P, H1.
      * right. exists (String c u), rest.
        split; [now rewrite E|]. split; [now rewrite H2 | discriminate].
Qed.

Lemma Replace_has_new (s : string) :
  Contains s old = true -> Contains (Replace s old new) new = true.
Proof.
  intros H. destruct (Replace_first s) as [[H1 _]|[u [rest [_ [-> _]]]]].
  - congruence.
  - apply Contains_intro.
Qed.

End ReplaceFacts.

(** Every text contains the empty string: a pattern that some text does not
    contain is not empty. *)
Lemma Contains_false_nonempty (s x : string) :
  Contains s x = false -> x <> EmptyString.
Proof.
  intros H ->. destruct s; cbn [Contains] in H; rewrite prefix_nil in H;
    discriminate.
Qed.

(* ================================================================== *)
(** ** Wrapping and unwrapping a term                                  *)
(* ================================================================== *)

Section RoundTrip.

Variables term mark : string.
Hypothesis term_nonempty : term <> EmptyString.
Hypothesis mark_nonempty : mark <> EmptyString.
Hypothesis mark_no_overlap : overlapsItself mark = false.

Lemma ends_in (u k : string) : u <> EmptyString -> In k (ends (u ++ k)).
Proof.
  induction u as [|c u IH]; intros H; [now elim H|].
  cbn [append ends]. destruct u as [|d u].
  - left; reflexivity.
  - right. apply IH. discriminate.
Qed.

Lemma no_overlap (u k : string) :
  mark = u ++ k -> u <> EmptyString -> k <> EmptyString -> prefix k mark = false.
Proof.
  intros E Hu Hk. destruct (prefix k mark) eqn:P; [|reflexivity].
  exfalso. unfold overlapsItself in mark_no_overlap.
  assert (X : existsb (fun x => negb (x =? EmptyString) && prefix x mark)
                      (ends mark) = true).
  { apply existsb_exists. exists k. split.
    - rewrite E. now apply ends_in.
    - rewrite P, andb_true_r. apply negb_true_iff. now apply eqb_empty_false. }
  congruence.
Qed.

(** After the terms of a text are wrapped, the first marker found is the
    first one that was put in: none starts earlier. *)
Lemma wrapped_head (s : string) :
  prefix term s = false ->
  Contains s mark = false ->
  prefix mark (Replace s term mark) = false.
Proof.
  intros P C. destruct (prefix mark (Replace s term mark)) eqn:Q; [|reflexivity].
  exfalso.
  destruct (Replace_first term mark term_nonempty s)
    as [[_ E]|[u [rest [Es [E Hu]]]]].
  - rewrite E in Q. apply Contains_prefix in Q. congruence.
  - specialize (Hu P). rewrite E in Q.
    destruct (prefix_inv _ _ Q) as [r Hr].
    destruct (append_eq_append _ _ _ _ Hr) as [[k [Em Ek]]|[k [Eu _]]].
    + (* the marker found starts inside [u] and runs into the one put in *)
      assert (Hk : k <> EmptyString).
      { intros ->. rewrite append_nil_r in Em. subst u.
        pose proof (Contains_intro EmptyString mark (term ++ rest)) as X.
        cbn [append] in X. congruence. }
      pose proof (no_overlap u k Em Hu Hk) as N.
      assert (Pk : prefix k mark = true).
      { symmetry in Ek.
        destruct (append_eq_append _ _ _ _ Ek) as [[j [Ej _]]|[j [Ej _]]].
        - apply prefix_iff. now exists j.
        - (* [k] would be longer than the marker it ends *)
          apply (f_equal String.length) in Em, Ej.
          rewrite length_append in Em, Ej.
          assert (String.length u <> 0) by (destruct u; [now elim Hu|discriminate]).
          lia. }
      congruence.
    + (* the marker found lies inside [u] *)
      rewrite Es, Eu, append_assoc in C.
      pose proof (Contains_intro EmptyString mark (k ++ term ++ rest)) as X.
      cbn [append] in X. congruence.
Qed.

(** Wrapping every term and then unwrapping every marker gives the text
    back, when the text had no marker and the marker cannot overlap
    itself. *)
Lemma unwrap_wrap (n : nat) :
  forall s : string,
    String.length s <= n ->
    Contains s mark = false ->
    Replace (Replace s term mark) mark term = s.
Proof.
  pose proof mark_nonempty as Hm.
  induction n as [|n IH]; intros s L C.
  - destruct s; [|simpl in L; lia].
    rewrite (Replace_nil term mark term_nonempty). now apply Replace_nil.
  - destruct s as [|c s].
    + rewrite (Replace_nil term mark term_nonempty). now apply Replace_nil.
    + destruct (prefix term (String c s)) eqn:P.
      * destruct (prefix_inv _ _ P) as [r E]. rewrite E.
        rewrite (Replace_hit term mark term_nonempty).
        rewrite (Replace_hit mark term Hm). f_equal.
        apply IH.
        -- apply (f_equal String.length) in E. rewrite length_append in E.
           pose proof (old_length term term_nonempty). simpl in E, L. lia.
        -- rewrite E in C. eapply Contains_app_r; eauto.
      * pose proof (wrapped_head _ P C) as W.
        rewrite (Replace_miss term mark term_nonempty _ _ P) in W |- *.
        rewrite (Replace_miss mark term Hm _ _ W). f_equal.
        apply IH; [simpl in L; lia|]. eapply Contains_tail; eauto.
Qed.

End RoundTrip.

(* ================================================================== *)
(** ** One content field                                               *)
(* ================================================================== *)

Section ContentFacts.

Lemma marker_nonempty (t : string) : SearchHighlightFmt t <> EmptyString.
Proof. discriminate. Qed.

Lemma marker_has_term (t : string) : Contains (SearchHighlightFmt t) t = true.
Proof. apply Contains_intro. Qed.

Lemma clearPrev_none (p c : string) :
  p = EmptyString \/ Contains c (SearchHighlightFmt p) = false ->
  clearPrev p c = c.
Proof.
  unfold clearPrev. intros [-> | ->]; [reflexivity|].
  now rewrite andb_false_r.
Qed.

(** Once the search is highlighted, highlighting it again changes nothing. *)
Lemma markSearch_idem (s c : string) :
  markSearch s (markSearch s c) = markSearch s c.
Proof.
  destruct (negb (s =? EmptyString)
            && negb (Contains c (SearchHighlightFmt s))
            && Contains c s) eqn:G.
  - assert (E : markSearch s c = Replace c s (SearchHighlightFmt s))
      by (unfold markSearch; now rewrite G).
    apply andb_true_iff in G as [G Hc]. apply andb_true_iff in G as [Hs _].
    apply negb_true_iff, eqb_empty_false in Hs.
    rewrite E. unfold markSearch.
    rewrite (Replace_has_new s (SearchHighlightFmt s) Hs c Hc).
    cbn [negb]. now rewrite andb_false_r.
  - assert (E : markSearch s c = c) by (unfold markSearch; now rewrite G).
    now rewrite !E.
Qed.

Lemma markSearch_absent (s c : string) :
  s = EmptyString \/ Contains c s = false -> markSearch s c = c.
Proof.
  unfold markSearch. intros [-> | ->]; [reflexivity|].
  now rewrite andb_false_r.
Qed.

(** A settled content field is a fixed point of the second rescan. *)
Lemma updatedContent_idem (s p c : string) :
  settled s p c = true ->
  updatedContent s p (updatedContent s p c) = updatedContent s p c.
Proof.
  unfold settled, updatedContent. intros H.
  assert (second :
    Contains (markSearch s (clearPrev p c)) (SearchHighlightFmt p) = false ->
    markSearch s (clearPrev p (markSearch s (clearPrev p c)))
    = markSearch s (clearPrev p c)).
  { intros N. rewrite (clearPrev_none p (markSearch s (clearPrev p c)))
      by (right; exact N). apply markSearch_idem. }
  apply orb_true_iff in H as [H|H]; [apply orb_true_iff in H as [H|H]|].
  - apply eqb_empty in H. subst p.
    rewrite !(clearPrev_none EmptyString) by (left; reflexivity).
    apply markSearch_idem.
  - apply negb_true_iff in H. now apply second.
  - apply andb_true_iff in H as [H H3]. apply andb_true_iff in H as [H1 H2].
    apply String.eqb_eq in H1. subst s.
    apply negb_true_iff in H2, H3.
    set (c1 := clearPrev p c) in *.
    destruct (p =? EmptyString) eqn:Ep.
    { apply eqb_empty in Ep. subst p.
      rewrite (clearPrev_none EmptyString) by (left; reflexivity).
      apply markSearch_idem. }
    apply eqb_empty_false in Ep.
    destruct (Contains c1 p) eqn:Hc.
    + assert (M : markSearch p c1 = Replace c1 p (SearchHighlightFmt p)).
      { unfold markSearch. rewrite H3, Hc.
        apply eqb_empty_false in Ep. now rewrite Ep. }
      rewrite M.
      assert (U : clearPrev p (Replace c1 p (SearchHighlightFmt p)) = c1).
      { unfold clearPrev.
        rewrite (Replace_has_new p (SearchHighlightFmt p) Ep c1 Hc).
        apply eqb_empty_false in Ep. rewrite Ep. cbn [negb andb].
        apply eqb_empty_false in Ep.
        apply (unwrap_wrap p (SearchHighlightFmt p) Ep (marker_nonempty p) H2
                           (String.length c1)); [lia | exact H3]. }
      rewrite U. exact M.
    + apply second.
      rewrite (markSearch_absent p c1) by (right; exact Hc). exact H3.
Qed.

(** Wrap, then unwrap: the content field is as it was. *)
Lemma unwrap_highlightNew (term c : string) :
  overlapsItself (SearchHighlightFmt term) = false ->
  Contains c (SearchHighlightFmt term) = false ->
  clearPrev term (highlightNew term c) = c.
Proof.
  intros O N. unfold highlightNew.
  destruct (term =? EmptyString) eqn:Et; cbn [negb].
  - apply clearPrev_none. right; exact N.
  - apply eqb_empty_false in Et.
    destruct (Contains c term) eqn:Hc.
    + unfold clearPrev.
      rewrite (Replace_has_new term (SearchHighlightFmt term) Et c Hc).
      apply eqb_empty_false in Et. rewrite Et. cbn [negb andb].
      apply eqb_empty_false in Et.
      apply (unwrap_wrap term (SearchHighlightFmt term) Et
                         (marker_nonempty term) O (String.length c));
        [lia | exact N].
    + apply clearPrev_none. right; exact N.
Qed.

End ContentFacts.

(* ================================================================== *)
(** ** Lines: occurs, cut, SplitN, Split                               *)
(* ================================================================== *)

Section LineFacts.

Lemma occurs_app (ch : ascii) (a b : string) :
  occurs ch (a ++ b) = occurs ch a || occurs ch b.
Proof.
  induction a as [|x a IH]; cbn [append occurs]; [reflexivity|].
  now rewrite IH, orb_assoc.
Qed.

Lemma occurs_drop (ch : ascii) (n : nat) (s : string) :
  occurs ch s = false -> occurs ch (drop n s) = false.
Proof.
  revert s; induction n as [|n IH]; intros [|c s] H; cbn [drop]; auto.
  apply IH. cbn [occurs] in H. apply orb_false_iff in H. tauto.
Qed.

Lemma occurs_Contains (ch : ascii) (s x : string) :
  Contains s x = true -> occurs ch s = false -> occurs ch x = false.
Proof.
  intros H O. destruct (Contains_inv _ _ H) as [u [v ->]].
  rewrite !occurs_app in O. apply orb_false_iff in O as [_ O].
  apply orb_false_iff in O. tauto.
Qed.

Lemma occurs_replaceLoop (ch : ascii) (old new : string) (fuel : nat) :
  occurs ch new = false ->
  forall s, occurs ch s = false -> occurs ch (replaceLoop fuel old new s) = false.
Proof.
  intros Hn. induction fuel as [|fuel IH]; intros s Hs; [now destruct s|].
  destruct s as [|c s]; [reflexivity|]. cbn [replaceLoop].
  destruct (prefix old (String c s)).
  - rewrite occurs_app, Hn. apply IH. now apply occurs_drop.
  - cbn [occurs] in Hs |- *. apply orb_false_iff in Hs as [-> Hs]. now apply IH.
Qed.

Lemma occurs_insertEach (ch : ascii) (new s : string) :
  occurs ch new = false -> occurs ch s = false ->
  occurs ch (insertEach new s) = false.
Proof.
  intros Hn. induction s as [|c s IH]; intros Hs; cbn [insertEach]; [exact Hn|].
  cbn [occurs] in Hs. apply orb_false_iff in Hs as [Hc Hs].
  rewrite occurs_app, Hn. cbn [occurs orb]. rewrite Hc. now apply IH.
Qed.

(** A replacement brings in no byte that neither the text nor the new
    string has. *)
Lemma occurs_Replace (ch : ascii) (s old new : string) :
  occurs ch s = false -> occurs ch new = false ->
  occurs ch (Replace s old new) = false.
Proof.
  intros Hs Hn. unfold Replace. destruct old.
  - now apply occurs_insertEach.
  - now apply occurs_replaceLoop.
Qed.

Lemma occurs_marker (t : string) :
  occurs newline t = false -> occurs newline (SearchHighlightFmt t) = false.
Proof.
  intros H. unfold SearchHighlightFmt. rewrite !occurs_app, H. reflexivity.
Qed.

(** Highlighting puts no newline into a content field. *)
Lemma occurs_updatedContent (s p c : string) :
  occurs newline c = false -> occurs newline (updatedContent s p c) = false.
Proof.
  intros H. unfold updatedContent.
  assert (H1 : occurs newline (clearPrev p c) = false).
  { unfold clearPrev.
    destruct (negb (p =? EmptyString) && Contains c (SearchHighlightFmt p)) eqn:G;
      [|exact H].
    apply andb_true_iff in G as [_ G].
    apply occurs_Replace; [exact H|].
    apply (occurs_Contains newline c p); [|exact H].
    eapply Contains_trans; [exact G | apply marker_has_term]. }
  unfold markSearch.
  destruct (negb (s =? EmptyString)
            && negb (Contains (clearPrev p c) (SearchHighlightFmt s))
            && Contains (clearPrev p c) s) eqn:G; [|exact H1].
  apply andb_true_iff in G as [_ G].
  apply occurs_Replace; [exact H1|].
  apply occurs_marker. now apply (occurs_Contains newline (clearPrev p c) s).
Qed.

Lemma cut_Some (sep : ascii) (s a b : string) :
  cut sep s = Some (a, b) -> s = a ++ String sep b /\ occurs sep a = false.
Proof.
  revert a; induction s as [|c s IH]; intros a H; cbn [cut] in H; [discriminate|].
  destruct (Ascii.eqb c sep) eqn:E.
  - injection H as <- <-. apply Ascii.eqb_eq in E. subst c. now split.
  - destruct (cut sep s) as [[a' b']|]; [|discriminate].
    injection H as <- <-. destruct (IH a' eq_refl) as [-> O].
    split; [reflexivity|]. cbn [occurs]. now rewrite E, O.
Qed.

Lemma cut_None (sep : ascii) (s : string) :
  cut sep s = None -> occurs sep s = false.
Proof.
  induction s as [|c s IH]; intros H; [reflexivity|]. cbn [cut] in H.
  cbn [occurs]. destruct (Ascii.eqb c sep); [discriminate|].
  destruct (cut sep s) as [[a b]|]; [discriminate|]. now apply IH.
Qed.

Lemma cut_app (sep : ascii) (a b : string) :
  occurs sep a = false -> cut sep (a ++ String sep b) = Some (a, b).
Proof.
  induction a as [|c a IH]; intros H; cbn [append cut].
  - now rewrite Ascii.eqb_refl.
  - cbn [occurs] in H. apply orb_false_iff in H as [-> H]. now rewrite IH.
Qed.

(** Three fields: the line is two space-free fields, each followed by a
    space, and a rest. *)
Lemma SplitN3_inv (line f0 f1 f2 : string) :
  SplitN line space 3 = [f0; f1; f2] ->
  line = f0 ++ sp ++ f1 ++ sp ++ f2
  /\ occurs space f0 = false /\ occurs space f1 = false.
Proof.
  cbn [SplitN]. intros H.
  destruct (cut space line) as [[a r]|] eqn:C1; [|discriminate].
  destruct (cut space r) as [[b r']|] eqn:C2; [|discriminate].
  injection H as <- <- <-.
  destruct (cut_Some _ _ _ _ C1) as [-> O1].
  destruct (cut_Some _ _ _ _ C2) as [-> O2]. now repeat split.
Qed.

Lemma SplitN3_build (f0 f1 f2 : string) :
  occurs space f0 = false -> occurs space f1 = false ->
  SplitN (f0 ++ sp ++ f1 ++ sp ++ f2) space 3 = [f0; f1; f2].
Proof.
  intros O0 O1. cbn [SplitN]. unfold sp. cbn [append].
  rewrite (cut_app space f0 _ O0), (cut_app space f1 _ O1). reflexivity.
Qed.

(** Fewer than three fields: the line has at most one space. *)
Lemma SplitN3_short (line : string) :
  List.length (SplitN line space 3) < 3 ->
  exists a b, SplitN line space 3 = a :: b /\ List.length b < 2.
Proof.
  cbn [SplitN].
  destruct (cut space line) as [[a r]|].
  - destruct (cut space r) as [[b r']|]; cbn [List.length]; intros H; [lia|].
    exists a, [r]. split; [reflexivity | cbn; lia].
  - intros _. exists line, []. split; [reflexivity | cbn; lia].
Qed.

Lemma SplitN3_length (line : string) :
  1 <= List.length (SplitN line space 3) <= 3.
Proof.
  cbn [SplitN].
  destruct (cut space line) as [[a r]|]; [|cbn; lia].
  destruct (cut space r) as [[b r']|]; cbn; lia.
Qed.

Lemma rescanLine_rewritten (s p line : string) :
  rescanLine s p line =
  if line =? EmptyString then EmptyString else rewritten s p line ++ nl.
Proof.
  unfold rescanLine, rewritten. destruct (line =? EmptyString); [reflexivity|].
  destruct (SplitN line space 3) as [|f0 [|f1 [|f2 [|x l]]]]; try reflexivity.
  now rewrite !append_assoc.
Qed.

Lemma rewritten_nonempty (s p line : string) :
  line <> EmptyString -> rewritten s p line <> EmptyString.
Proof.
  intros H. unfold rewritten.
  destruct (SplitN line space 3) as [|f0 [|f1 [|f2 [|x l]]]] eqn:E; try exact H.
  destruct f0; discriminate.
Qed.

Lemma rewritten_no_newline (s p line : string) :
  occurs newline line = false -> occurs newline (rewritten s p line) = false.
Proof.
  intros H. unfold rewritten.
  destruct (SplitN line space 3) as [|f0 [|f1 [|f2 [|x l]]]] eqn:E; try exact H.
  destruct (SplitN3_inv _ _ _ _ E) as [-> _].
  rewrite !occurs_app in H.
  apply orb_false_iff in H as [A H]. apply orb_false_iff in H as [B H].
  apply orb_false_iff in H as [C H]. apply orb_false_iff in H as [D H].
  rewrite !occurs_app, A, B, C. cbn [orb].
  now apply occurs_updatedContent.
Qed.

(** The first two fields of a rewritten line are those of the line. *)
Lemma rewritten_fields (s p line f0 f1 f2 : string) :
  SplitN line space 3 = [f0; f1; f2] ->
  SplitN (rewritten s p line) space 3 = [f0; f1; updatedContent s p f2].
Proof.
  intros E. unfold rewritten. rewrite E.
  destruct (SplitN3_inv _ _ _ _ E) as [_ [O0 O1]]. now apply SplitN3_build.
Qed.

Lemma rewritten_short (s p line : string) :
  List.length (SplitN line space 3) < 3 -> rewritten s p line = line.
Proof.
  intros H. unfold rewritten.
  destruct (SplitN line space 3) as [|f0 [|f1 [|f2 [|x l]]]]; try reflexivity.
  cbn in H. lia.
Qed.

(** A line whose content field is settled is a fixed point of the rewrite. *)
Lemma rewritten_idem (s p line : string) :
  forallb (settled s p) (contentOf line) = true ->
  rewritten s p (rewritten s p line) = rewritten s p line.
Proof.
  intros H.
  destruct (SplitN line space 3) as [|f0 [|f1 [|f2 [|x l]]]] eqn:E;
    try (rewrite (rewritten_short s p line) by (rewrite E; cbn; lia);
         apply rewritten_short; rewrite E; cbn; lia).
  - pose proof (rewritten_fields s p line f0 f1 f2 E) as F.
    unfold rewritten at 1. rewrite F.
    unfold rewritten. rewrite E.
    rewrite updatedContent_idem; [reflexivity|].
    unfold contentOf in H. rewrite E in H.
    destruct (line =? EmptyString) eqn:L.
    + apply eqb_empty in L. subst line. discriminate.
    + cbn [forallb] in H. now rewrite andb_true_r in H.
  - unfold rewritten. rewrite E. unfold rewritten. now rewrite E.
Qed.

Lemma Split_nonnil (sep : ascii) (s : string) : Split s sep <> [].
Proof.
  induction s as [|c s IH]; cbn [Split]; [discriminate|].
  destruct (Ascii.eqb c sep); [discriminate|].
  destruct (Split s sep); discriminate.
Qed.

(** The first piece of a text is what stands before its first separator. *)
Lemma Split_line (sep : ascii) (l rest : string) :
  occurs sep l = false ->
  Split (l ++ String sep rest) sep = l :: Split rest sep.
Proof.
  induction l as [|c l IH]; intros H; cbn [append Split].
  - now rewrite Ascii.eqb_refl.
  - cbn [occurs] in H. apply orb_false_iff in H as [-> H]. now rewrite IH.
Qed.

Lemma Split_free (sep : ascii) (s : string) :
  Forall (fun l => occurs sep l = false) (Split s sep).
Proof.
  induction s as [|c s IH]; cbn [Split].
  - now constructor.
  - destruct (Ascii.eqb c sep) eqn:E; [now constructor|].
    destruct (Split s sep) as [|h t] eqn:S; [now apply Split_nonnil in S|].
    inversion IH; subst. constructor; [|assumption].
    cbn [occurs]. now rewrite E.
Qed.

Lemma fold_concat (f : string -> string) (l : list string) (acc : string) :
  fold_left (fun a x => a ++ f x) l acc = acc ++ concat (map f l).
Proof.
  revert acc; induction l as [|x l IH]; intros acc; cbn [fold_left map concat fold_right].
  - now rewrite append_nil_r.
  - rewrite IH. fold (concat (map f l)). now rewrite append_assoc.
Qed.

(** [updatedData] is the rewritten lines one after the other. *)
Lemma updatedData_concat (s p text : string) :
  updatedData s p text = concat (map (rescanLine s p) (Split text newline)).
Proof. unfold updatedData. now rewrite fold_concat. Qed.

End LineFacts.

(* ================================================================== *)
(** ** The whole text                                                  *)
(* ================================================================== *)

Section TextFacts.

(** Empty lines add nothing; every other line adds its rewriting and a
    newline. *)
Lemma concat_rescanLine (s p : string) (L : list string) :
  concat (map (rescanLine s p) L)
  = concat (map withNewline (map (rewritten s p) (filter nonempty L))).
Proof.
  induction L as [|l L IH]; [reflexivity|].
  cbn [map concat fold_right filter]. fold (concat (map (rescanLine s p) L)).
  rewrite rescanLine_rewritten, IH. unfold nonempty at 2.
  destruct (l =? EmptyString); reflexivity.
Qed.

(** A text made of newline-terminated lines splits into these lines and the
    empty piece behind the last newline. *)
Lemma Split_lines (Ls : list string) :
  Forall (fun l => occurs newline l = false) Ls ->
  Split (concat (map withNewline Ls)) newline = (Ls ++ [EmptyString])%list.
Proof.
  induction 1 as [|l Ls Hl _ IH]; [reflexivity|].
  cbn [map concat fold_right app]. fold (concat (map withNewline Ls)).
  unfold withNewline at 1, nl. rewrite append_assoc. cbn [append].
  rewrite (Split_line newline l _ Hl), IH. reflexivity.
Qed.

Lemma rewritten_lines_free (s p : string) (L : list string) :
  Forall (fun l => occurs newline l = false) L ->
  Forall (fun l => occurs newline l = false)
         (map (rewritten s p) (filter nonempty L)).
Proof.
  induction 1 as [|l L Hl _ IH]; [constructor|].
  cbn [filter]. destruct (nonempty l); [|exact IH].
  cbn [map]. constructor; [now apply rewritten_no_newline | exact IH].
Qed.

(** The lines of the text after the loop of lines 471-505. *)
Lemma Split_updatedData (s p text : string) :
  Split (updatedData s p text) newline
  = (map (rewritten s p) (filter nonempty (Split text newline))
     ++ [EmptyString])%list.
Proof.
  rewrite updatedData_concat, concat_rescanLine.
  apply Split_lines, rewritten_lines_free, Split_free.
Qed.

Lemma filter_rewritten (s p : string) (L : list string) :
  filter nonempty
         (map (rewritten s p) (filter nonempty L) ++ [EmptyString])%list
  = map (rewritten s p) (filter nonempty L).
Proof.
  induction L as [|l L IH]; [reflexivity|].
  cbn [filter]. destruct (nonempty l) eqn:N; [|exact IH].
  cbn [map app filter].
  assert (R : nonempty (rewritten s p l) = true).
  { unfold nonempty in *. apply negb_true_iff, eqb_empty_false.
    apply rewritten_nonempty. now apply eqb_empty_false, negb_true_iff. }
  rewrite R, IH. reflexivity.
Qed.

Lemma forallb_flat_map {A B : Type} (f : B -> bool) (g : A -> list B)
      (L : list A) :
  forallb f (flat_map g L) = forallb (fun a => forallb f (g a)) L.
Proof.
  induction L as [|a L IH]; [reflexivity|].
  cbn [flat_map forallb]. now rewrite forallb_app, IH.
Qed.

Lemma rewritten_twice (s p : string) (L : list string) :
  forallb (fun l => forallb (settled s p) (contentOf l)) L = true ->
  map (rewritten s p) (map (rewritten s p) (filter nonempty L))
  = map (rewritten s p) (filter nonempty L).
Proof.
  induction L as [|l L IH]; [reflexivity|]. cbn [forallb].
  intros H. apply andb_true_iff in H as [H1 H2].
  cbn [filter]. destruct (nonempty l); [|now apply IH].
  cbn [map]. rewrite rewritten_idem by exact H1. now rewrite IH.
Qed.

(** On a text whose content fields are settled, the loop of lines 471-505
    reproduces its own output. *)
Lemma updatedData_idem (s p text : string) :
  forallb (settled s p) (contents text) = true ->
  updatedData s p (updatedData s p text) = updatedData s p text.
Proof.
  intros H. unfold contents in H. rewrite forallb_flat_map in H.
  rewrite (updatedData_concat s p (updatedData s p text)).
  rewrite Split_updatedData, concat_rescanLine, filter_rewritten.
  rewrite (rewritten_twice s p _ H).
  now rewrite updatedData_concat, concat_rescanLine.
Qed.

Lemma rescan_triggered (s p text : string) :
  negb (s =? EmptyString) || negb (p =? EmptyString) = true ->
  rescan s p text = updatedData s p text.
Proof. unfold rescan. now intros ->. Qed.

Lemma pauseLine_fields (isPaused : bool) (now : string) :
  SplitN (pauseLine isPaused now) space 3
  = [ "[gray:black]" ++ shade;
      if isPaused then "PAUSED" else "RESUMED";
      "@ " ++ now ++ shade ++ "[-:-]" ].
Proof. destruct isPaused; reflexivity. Qed.

Lemma filterLine_fields (filter now : string) :
  SplitN (filterLine filter now) space 3
  = [ "[gray:black]" ++ shade;
      "Filter";
      ("set to '" ++ filter ++ "' @ " ++ now) ++ shade ++ "[-:-]" ].
Proof. reflexivity. Qed.

End TextFacts.

(* ================================================================== *)
(** ** The highlighter: what the rescan keeps and what it changes      *)
(* ================================================================== *)

Example rescan_wraps :
  rescan "foo" EmptyString ("1: t a foo b" ++ nl ++ "no fields" ++ nl)
  = "1: t a [blue:gray]foo[-:-] b" ++ nl ++ "no fields" ++ nl.
Proof. reflexivity. Qed.

Example rescan_swaps :
  rescan "bar" "foo" ("1: t [blue:gray]foo[-:-] wrapped bar" ++ nl)
  = "1: t foo wrapped [blue:gray]bar[-:-]" ++ nl.
Proof. reflexivity. Qed.

Example rescan_cancelled_search :
  rescan "foo" "foo" ("1: t [blue:gray]foo[-:-] and foo" ++ nl)
  = "1: t [blue:gray]foo[-:-] and [blue:gray]foo[-:-]" ++ nl.
Proof. reflexivity. Qed.

(** C6, as the code has it.  The lines of the text after the loop are the
    rewritings of the non-empty lines of the text before it, in order (an
    empty line is skipped).  A line with fewer than three fields is its own
    rewriting; a line with three fields keeps its first two fields, whatever
    they hold, and only its third field is touched.  The banner of a pause
    and the banner of a filter hold more than two spaces: they are lines of
    three fields, and what follows their second space is searched like any
    content field. *)
Theorem rescan_frame (search prev text line flt now : string)
        (isPaused : bool) :
  rescan search prev text
  = (if (search =? EmptyString) && (prev =? EmptyString) then text
     else updatedData search prev text)
  /\ Split (updatedData search prev text) newline
     = (map (rewritten search prev) (filter nonempty (Split text newline))
        ++ [EmptyString])%list
  /\ match SplitN line space 3 with
     | [f0; f1; f2] =>
         rescanLine search prev line
         = f0 ++ sp ++ f1 ++ sp ++ updatedContent search prev f2 ++ nl
         /\ SplitN (rewritten search prev line) space 3
            = [f0; f1; updatedContent search prev f2]
     | _ =>
         rewritten search prev line = line
         /\ rescanLine search prev line
            = if line =? EmptyString then EmptyString else line ++ nl
     end
  /\ SplitN (pauseLine isPaused now) space 3
     = [ "[gray:black]" ++ shade;
         if isPaused then "PAUSED" else "RESUMED";
         "@ " ++ now ++ shade ++ "[-:-]" ]
  /\ SplitN (filterLine flt now) space 3
     = [ "[gray:black]" ++ shade;
         "Filter";
         ("set to '" ++ flt ++ "' @ " ++ now) ++ shade ++ "[-:-]" ].
Proof.
  split; [|split; [|split; [|split]]].
  - unfold rescan.
    destruct (search =? EmptyString), (prev =? EmptyString); reflexivity.
  - apply Split_updatedData.
  - destruct (SplitN line space 3) as [|f0 [|f1 [|f2 [|x l]]]] eqn:E.
    + pose proof (SplitN3_length line) as L. rewrite E in L. cbn in L. lia.
    + split; [unfold rewritten; now rewrite E|].
      unfold rescanLine. now rewrite E.
    + split; [unfold rewritten; now rewrite E|].
      unfold rescanLine. now rewrite E.
    + split; [|now apply rewritten_fields].
      unfold rescanLine. rewrite E.
      destruct (line =? EmptyString) eqn:N; [|reflexivity].
      apply eqb_empty in N. subst line. discriminate.
    + pose proof (SplitN3_length line) as L. rewrite E in L. cbn in L. lia.
  - apply pauseLine_fields.
  - apply filterLine_fields.
Qed.

(** C6 as the specification words it fails on a pause banner: the banner a
    Pause command writes into an empty view is changed by a rescan for the
    search "12".  The view holds the banner as a line and reads back with
    one more newline; what the rescan makes of the text read back has the
    time of the banner marked, and is neither the text read back nor the
    text held. *)
Lemma pause_banner_not_passed_through :
  let view := snd (pauseCommand New NewTextView "12:00:00") in
  tv_text view = pauseLine true "12:00:00" ++ nl
  /\ GetText view = pauseLine true "12:00:00" ++ nl ++ nl
  /\ rescan "12" EmptyString (GetText view)
     = "[gray:black]" ++ shade ++ " PAUSED @ [blue:gray]12[-:-]:00:00"
       ++ shade ++ "[-:-]" ++ nl
  /\ rescan "12" EmptyString (GetText view) <> GetText view
  /\ rescan "12" EmptyString (GetText view) <> tv_text view.
Proof.
  cbv zeta. split; [reflexivity|]. split; [reflexivity|].
  split; [vm_compute; reflexivity|].
  split; vm_compute; discriminate.
Qed.

(** C2, as the code has it.  On a text all of whose content fields are
    settled for the search and the previous search, a second rescan with
    the same two terms changes nothing. *)
Theorem rescan_idempotent (search prev text : string) :
  forallb (settled search prev) (contents text) = true ->
  rescan search prev (rescan search prev text) = rescan search prev text.
Proof.
  intros H. unfold rescan.
  destruct (negb (search =? EmptyString) || negb (prev =? EmptyString));
    [|reflexivity].
  now apply updatedData_idem.
Qed.

Lemma rescan_idempotent_witness :
  let text := "1: t a foo b" ++ nl ++ "2: t [blue:gray]bar[-:-] foo" ++ nl
              ++ nl ++ pauseLine true "12:00:00" ++ nl ++ "short line" ++ nl in
  forallb (settled "foo" "bar") (contents text) = true
  /\ rescan "foo" "bar" (rescan "foo" "bar" text) = rescan "foo" "bar" text
  /\ forallb (settled "foo" "foo") (contents text) = true
  /\ rescan "foo" "foo" (rescan "foo" "foo" text) = rescan "foo" "foo" text.
Proof.
  cbv zeta. split; [vm_compute; reflexivity|].
  split; [apply rescan_idempotent; vm_compute; reflexivity|].
  split; [vm_compute; reflexivity|].
  apply rescan_idempotent. vm_compute. reflexivity.
Defined.

(** C2 as the specification words it fails on a text that holds a marker
    inside a marker: the first rescan peels one layer, the second one the
    next. *)
Lemma rescan_twice_differs :
  let text := "1: [gray:black]12:00:00[-:-] "
              ++ "[blue:gray][blue:gray]x[-:-][-:-]: line 1" ++ nl in
  rescan EmptyString "x" text
  = "1: [gray:black]12:00:00[-:-] [blue:gray]x[-:-]: line 1" ++ nl
  /\ rescan EmptyString "x" (rescan EmptyString "x" text)
     = "1: [gray:black]12:00:00[-:-] x: line 1" ++ nl
  /\ rescan EmptyString "x" (rescan EmptyString "x" text)
     <> rescan EmptyString "x" text.
Proof.
  cbv zeta. split; [vm_compute; reflexivity|]. split; [vm_compute; reflexivity|].
  vm_compute. discriminate.
Qed.

(** C3, as the code has it.  A content field without the marker of a term
    is given the search highlight of that term, by the rescan (lines
    497-502) or on arrival (lines 569-574), which comes to the same; a
    rescan with the term as previous search, and with a new search that is
    empty or does not occur in the field, gives the field back byte for
    byte, provided the marker of the term cannot overlap itself.  The first
    two fields of the line stay as they are. *)
Theorem highlight_roundtrip (term search f0 f1 content : string) :
  overlapsItself (SearchHighlightFmt term) = false ->
  Contains content (SearchHighlightFmt term) = false ->
  search = EmptyString \/ Contains content search = false ->
  occurs space f0 = false ->
  occurs space f1 = false ->
  markSearch term content = highlightNew term content
  /\ updatedContent search term (highlightNew term content) = content
  /\ rescanLine search term (f0 ++ sp ++ f1 ++ sp ++ highlightNew term content)
     = f0 ++ sp ++ f1 ++ sp ++ content ++ nl.
Proof.
  intros O N S O0 O1.
  assert (U : updatedContent search term (highlightNew term content) = content).
  { unfold updatedContent. rewrite (unwrap_highlightNew term content O N).
    now apply markSearch_absent. }
  split.
  { unfold markSearch, highlightNew. rewrite N. cbn [negb].
    rewrite andb_true_r.
    destruct (negb (term =? EmptyString)), (Contains content term); reflexivity. }
  split; [exact U|].
  unfold rescanLine. rewrite (SplitN3_build f0 f1 _ O0 O1), U.
  destruct (f0 ++ sp ++ f1 ++ sp ++ highlightNew term content =? EmptyString) eqn:E;
    [|reflexivity].
  apply eqb_empty in E. destruct f0; discriminate.
Qed.

Lemma highlight_roundtrip_witness :
  overlapsItself (SearchHighlightFmt "foo") = false
  /\ Contains "a foo b foo" (SearchHighlightFmt "foo") = false
  /\ highlightNew "foo" "a foo b foo"
     = "a [blue:gray]foo[-:-] b [blue:gray]foo[-:-]"
  /\ markSearch "foo" "a foo b foo" = highlightNew "foo" "a foo b foo"
  /\ updatedContent "bar" "foo" (highlightNew "foo" "a foo b foo")
     = "a foo b foo"
  /\ rescanLine "bar" "foo"
       ("1:" ++ sp ++ "[gray:black]12:00:00[-:-]" ++ sp
        ++ highlightNew "foo" "a foo b foo")
     = "1:" ++ sp ++ "[gray:black]12:00:00[-:-]" ++ sp ++ "a foo b foo" ++ nl.
Proof.
  split; [vm_compute; reflexivity|]. split; [vm_compute; reflexivity|].
  split; [vm_compute; reflexivity|].
  apply (highlight_roundtrip "foo" "bar" "1:" "[gray:black]12:00:00[-:-]"
                             "a foo b foo");
    try (vm_compute; reflexivity).
  right. vm_compute. reflexivity.
Defined.

(** C3 as the specification words it fails when the new search occurs in
    the line: the old term is unwrapped and the new one is wrapped, so the
    content field is not the original one. *)
Lemma roundtrip_new_search_differs :
  let content := "foo bar" in
  let line := "1: [gray:black]12:00:00[-:-] " ++ highlightNew "foo" content in
  Contains content "foo" = true
  /\ Contains content (SearchHighlightFmt "foo") = false
  /\ contents (line ++ nl) = ["[blue:gray]foo[-:-] bar"]
  /\ contents (rescan "bar" "foo" (line ++ nl)) = ["foo [blue:gray]bar[-:-]"]
  /\ contents (rescan "bar" "foo" (line ++ nl)) <> [content].
Proof.
  cbv zeta. repeat (split; [vm_compute; reflexivity|]).
  vm_compute. discriminate.
Qed.

(** The marker of a term made of marker pieces overlaps itself, and then
    even a rescan without a new search fails to give the field back. *)
Remark roundtrip_needs_no_overlap :
  let term := "[-:-][blue:gray]" in
  let content := "[blue:gray][-:-][-:-][blue:gray]" in
  overlapsItself (SearchHighlightFmt term) = true
  /\ Contains content term = true
  /\ Contains content (SearchHighlightFmt term) = false
  /\ updatedContent EmptyString term (highlightNew term content) <> content.
Proof.
  cbv zeta. repeat (split; [vm_compute; reflexivity|]).
  vm_compute. discriminate.
Qed.

(* ================================================================== *)
(** ** The forms, the handlers and the dispatcher                      *)
(* ================================================================== *)

Section DispatchFacts.

Variable Sprintf0 : string -> string.

Lemma last_default (es : list string) (d d' : string) :
  es <> [] -> last es d = last es d'.
Proof.
  induction es as [|e es IH]; intros H; [now elim H|].
  destruct es as [|e' es]; [reflexivity|].
  cbn [last] in *. apply IH. discriminate.
Qed.

Lemma fold_edits (es : list string) (acc : bool * string) :
  fold_left (fun (_ : bool * string) text => (true, text)) es acc
  = match es with
    | [] => acc
    | _ :: _ => (true, last es EmptyString)
    end.
Proof.
  revert acc; induction es as [|e es IH]; intros acc; [reflexivity|].
  cbn [fold_left]. rewrite IH. destruct es; reflexivity.
Qed.

(** On OK the forms answer with the text of the input field: the default
    value as long as the field was not edited, the last edit afterwards. *)
Lemma form_answer (d : string) (ui : FormInput) :
  DisplayFilter d ui
  = match button ui with
    | OK => last (edits ui) d
    | Reset => EmptyString
    | Cancel => d
    end
  /\ DisplaySearch d ui = DisplayFilter d ui.
Proof.
  split; [|reflexivity]. unfold DisplayFilter, afterEdits.
  rewrite fold_edits. destruct (edits ui) as [|e es] eqn:E.
  - destruct (button ui); reflexivity.
  - destruct (button ui); try reflexivity.
    cbn [negb]. apply last_default. discriminate.
Qed.

(** The loop of [peek] hands back only commands of the peek view. *)
Lemma peekLoop_step (action : Action) (evs : list PeekEvent) (i : nat)
      (c : Cmd) (tv : TextView) (resp : Action) :
  fst (fst (peekLoop action evs i c tv)) = Ok resp ->
  isConnect (Step resp) = false.
Proof.
  revert i c tv; induction evs as [|e evs IH]; intros i c tv; cbn [peekLoop].
  - discriminate.
  - destruct e as [k t|n t|]; [|apply IH|apply IH].
    unfold keyAction.
    destruct (Ascii.eqb k "q"); [cbn; now intros [= <-]|].
    destruct (Ascii.eqb k "s"); [cbn; now intros [= <-]|].
    destruct (Ascii.eqb k "p");
      [cbn [isPause Step]; destruct (pauseCommand c tv t); cbn; now intros [= <-]|].
    destruct (Ascii.eqb k "f"); [cbn; now intros [= <-]|].
    destruct (Ascii.eqb k "/"); [cbn; now intros [= <-]|].
    apply IH.
Qed.

Lemma actionPeek_step (sc : option Script) (c : Cmd) (action : option Action)
      (resp : Action) :
  fst (actionPeek Sprintf0 sc c action) = Ok resp ->
  isConnect (Step resp) = false.
Proof.
  unfold actionPeek. destruct action as [a|]; [|discriminate].
  destruct (PeekComponent a =? EmptyString) eqn:E; [discriminate|].
  unfold peek. rewrite E. destruct sc as [sc|]; [|discriminate].
  destruct (announce Sprintf0 a _ _ (now sc)) as [c1 tv1].
  match goal with
  | |- context [peekLoop a ?evs ?i ?c ?tv] =>
      pose proof (peekLoop_step a evs i c tv resp) as P;
      destruct (peekLoop a evs i c tv) as [[r c2] tv2]
  end.
  destruct r; cbn [fst] in *; try discriminate. exact P.
Qed.

(** Only the Connect handler sends the program back to Connect. *)
Lemma later_step (action resp : Action) (sc : option Script) (c : Cmd)
      (h : option Script -> Cmd -> result Action * Cmd) :
  isConnect (Step action) = false ->
  switch Sprintf0 action = Handler h ->
  fst (h sc c) = Ok resp ->
  isConnect (Step resp) = false.
Proof.
  unfold switch. intros N S.
  destruct (Step action) eqn:E; try discriminate; injection S as <-.
  - unfold actionSelect, await. destruct sc as [sc|]; [|discriminate].
    destruct (api_GetAllLiveAudiences sc).
    + destruct (DisplayRetryModal (retryButton sc)); cbn; now intros [= <-].
    + destruct (userQuit sc); [cbn; now intros [= <-]|].
      destruct (picked sc); cbn; now intros [= <-].
  - intros H. exact (actionPeek_step sc c (Some action) resp H).
  - unfold actionFilter, await. destruct sc as [sc|]; [|discriminate].
    cbn. now intros [= <-].
  - unfold actionSearch, await. destruct sc as [sc|]; [|discriminate].
    cbn. now intros [= <-].
  - intros H. exact (actionPeek_step sc c (Some action) resp H).
Qed.

Lemma no_connect_later (world : list Script) :
  forall (depth : nat) (c : Cmd) (action : Action),
    isConnect (Step action) = false ->
    filter isConnect (steps (run Sprintf0 world depth c action)) = [].
Proof.
  unfold steps.
  induction world as [|sc world IH]; intros depth c action N; cbn [run];
    pose proof (later_step action) as L;
    destruct (switch Sprintf0 action) as [h|code|err];
    try (cbn [calls map snd filter]; now rewrite N).
  - destruct (h None c) as [[resp|err|] c1];
      cbn [calls map snd filter]; now rewrite N.
  - specialize (L) with (sc := Some sc) (c := c) (h := h).
    destruct (h (Some sc) c) as [[resp|err|] c1];
      try (cbn [calls map snd filter]; now rewrite N).
    cbn [calls map snd filter]. rewrite N. apply IH.
    apply L; auto.
Qed.

(** Every call of [run] is made one frame below the call before it. *)
Lemma run_depths (world : list Script) :
  forall (depth : nat) (c : Cmd) (action : Action),
    map fst (calls (run Sprintf0 world depth c action))
    = seq depth (List.length (calls (run Sprintf0 world depth c action))).
Proof.
  induction world as [|sc world IH]; intros depth c action; cbn [run];
    destruct (switch Sprintf0 action) as [h|code|err]; try reflexivity.
  - destruct (h None c) as [[resp|err|] c1]; reflexivity.
  - destruct (h (Some sc) c) as [[resp|err|] c1]; try reflexivity.
    cbn [calls map fst List.length seq]. now rewrite IH.
Qed.

(** As long as the connection is refused and the user retries, [run] nests
    one call deeper each time. *)
Lemma retry_calls (n : nat) :
  forall (depth : nat) (c : Cmd),
    calls (run Sprintf0 (repeat refused n) depth c (justStep StepConnect))
    = map (fun d => (d, StepConnect)) (seq depth (S n)).
Proof.
  induction n as [|n IH]; intros depth c; [reflexivity|].
  cbn [repeat]. cbn [run switch justStep Step].
  change (actionConnect (Some refused) c (justStep StepConnect))
    with (Ok (justStep StepConnect), c).
  cbn [calls]. rewrite IH. reflexivity.
Qed.

End DispatchFacts.

(* ================================================================== *)
(** ** The peek loop and the Pause command                             *)
(* ================================================================== *)

(** A session: connect, pick a component, search, filter, quit. *)
Example session_steps :
  let session :=
    [ quiet; picking "orders";
      peeking "12:00:00" [DataLine 1 "12:00:01"; Advance;
                          KeyPress "/" "12:00:02"];
      answering ["li"; "line"] OK;
      peeking "12:00:04" [KeyPress "f" "12:00:05"];
      answering ["2"] OK;
      peeking "12:01:00" [DataLine 1 "12:01:01"; Advance;
                          DataLine 2 "12:01:02"; Advance;
                          KeyPress "q" "12:01:03"] ] in
  steps (Run (fun s => s) session New)
  = [StepConnect; StepSelect; StepPeek; StepSearch; StepPeek; StepFilter;
     StepPeek; StepQuit]
  /\ option_map tv_text (textview (final (Run (fun s => s) session New)))
     = Some ("1: [gray:black]12:00:01[-:-] orders: [blue:gray]line[-:-] 1" ++ nl
             ++ filterLine "2" "12:01:00" ++ nl
             ++ "2: [gray:black]12:01:02[-:-] orders: line [green:gray]2[-:-]"
             ++ nl).
Proof. cbv zeta. split; vm_compute; reflexivity. Qed.

(** What the code does at a Pause command, in every state.  The loop of
    [peek] toggles the paused flag, sets the menu entry to the new state
    and writes the PAUSED or RESUMED banner to the view.  The case of the
    loop has no [continue]: control falls through to the return of line
    556, so that the Pause command is returned with the component, the
    filter, the search and the previous search of the session, and the
    dispatcher sends a Pause action to the Peek handler, where the comment
    of the case and the documentation of [actionPeek] have the command
    dealt with inside [peek]. *)
Theorem pause_command (Sprintf0 : string -> string) (action : Action)
        (rest : list PeekEvent) (i : nat) (c : Cmd) (textView : TextView)
        (now : string) :
  let resp := mkAction StepPause (PeekComponent action) (PeekFilter action)
                       (PeekSearch action) (PeekSearchPrev action) in
  let c' := set_menu (set_paused c (negb (paused c)))
                     (toggleMenuEntry (menu c) "Pause" (negb (paused c))) in
  let view := Fprint textView (pauseLine (negb (paused c)) now ++ nl) in
  peekLoop action (KeyPress "p" now :: rest) i c textView = (Ok resp, c', view)
  /\ switch Sprintf0 resp
     = Handler (fun sc c => actionPeek Sprintf0 sc c (Some resp)).
Proof.
  cbv zeta. split; [|reflexivity].
  cbn [peekLoop keyAction Ascii.eqb Bool.eqb isPause Step].
  unfold pauseCommand, reinject. cbn [paused set_paused set_menu menu Step
    PeekComponent PeekFilter PeekSearch PeekSearchPrev].
  destruct (paused c); reflexivity.
Qed.

(** C1, the code at the failing input.  In this session the key p is
    pressed in the peek view.  The claim, the documentation of
    [actionPeek] (lines 353-354) and the comment in the loop (lines
    525-528) have the Pause command handled inside the loop of [peek] and
    not sent back; the code leaves the loop at once, the data line that
    follows is not read by it, and the next call of [run] is given the
    Pause action. *)
Lemma pause_leaves_loop :
  let session :=
    [ quiet; picking "orders";
      peeking "12:00:00" [DataLine 1 "12:00:01"; Advance;
                          KeyPress "p" "12:00:02"; DataLine 2 "12:00:03"];
      peeking "12:00:04" [KeyPress "q" "12:00:05"] ] in
  fst (fst (peekLoop (mkAction StepPeek "orders" EmptyString EmptyString
                               EmptyString)
                     [KeyPress "p" "12:00:02"; DataLine 2 "12:00:03"] 2 New
                     (SetTitle NewTextView "orders")))
  = Ok (mkAction StepPause "orders" EmptyString EmptyString EmptyString)
  /\ calls (Run (fun s => s) session New)
     = [(1, StepConnect); (2, StepSelect); (3, StepPeek); (4, StepPause);
        (5, StepQuit)]
  /\ outcome (Run (fun s => s) session New) = Exited 0.
Proof. cbv zeta. repeat split; vm_compute; reflexivity. Qed.

(* ================================================================== *)
(** ** The Filter and Search round trips                               *)
(* ================================================================== *)

(** C4.  The key f leaves the loop of [peek] with a Filter action that
    carries the filter of the session.  The Filter handler answers with a
    Peek action for the same component whose filter is the text of the
    input field on OK (the field is pre-filled with the current filter),
    the empty string on Reset and the current filter on Cancel; in all
    three cases the announce flag is set. *)
Theorem filter_round_trip (peekAction action : Action) (sc : Script)
        (c : Cmd) (rest : list PeekEvent) (i : nat) (textView : TextView)
        (now : string) :
  let chosen :=
    match button (form sc) with
    | OK => last (edits (form sc)) (PeekFilter action)
    | Reset => EmptyString
    | Cancel => PeekFilter action
    end in
  peekLoop peekAction (KeyPress "f" now :: rest) i c textView
  = (Ok (mkAction StepFilter (PeekComponent peekAction) (PeekFilter peekAction)
                  (PeekSearch peekAction) (PeekSearchPrev peekAction)),
     c, textView)
  /\ fst (actionFilter (Some sc) c action)
     = Ok (mkAction StepPeek (PeekComponent action) chosen
                    EmptyString EmptyString)
  /\ announceFilter (snd (actionFilter (Some sc) c action)) = true.
Proof.
  cbv zeta. split; [reflexivity|].
  unfold actionFilter, await. cbn [fst snd].
  destruct (form_answer (PeekFilter action) (form sc)) as [-> _].
  split; [reflexivity|].
  destruct (negb _); reflexivity.
Qed.

(** C5.  The key / leaves the loop of [peek] with a Search action that
    carries the search of the session, and the Peek action the Search
    handler returns has that search, the one of the action it was given, as
    its previous search. *)
Theorem search_round_trip (peekAction action : Action) (sc : Script)
        (c : Cmd) (rest : list PeekEvent) (i : nat) (textView : TextView)
        (now : string) :
  let chosen :=
    match button (form sc) with
    | OK => last (edits (form sc)) (PeekSearch action)
    | Reset => EmptyString
    | Cancel => PeekSearch action
    end in
  peekLoop peekAction (KeyPress "/" now :: rest) i c textView
  = (Ok (mkAction StepSearch (PeekComponent peekAction) (PeekFilter peekAction)
                  (PeekSearch peekAction) (PeekSearchPrev peekAction)),
     c, textView)
  /\ fst (actionSearch (Some sc) c action)
     = Ok (mkAction StepPeek (PeekComponent action) EmptyString chosen
                    (PeekSearch action))
  /\ PeekSearchPrev
       (mkAction StepPeek (PeekComponent action) EmptyString chosen
                 (PeekSearch action))
     = PeekSearch action.
Proof.
  cbv zeta. split; [reflexivity|]. split; [|reflexivity].
  unfold actionSearch, await. cbn [fst].
  destruct (form_answer (PeekSearch action) (form sc)) as [E ->].
  rewrite E. reflexivity.
Qed.

(** C10.  Whatever search and previous search the action given to the
    Filter handler carries, the Peek action it returns has neither; whatever
    filter the action given to the Search handler carries, the Peek action
    it returns has none. *)
Theorem round_trips_drop_the_other_term (action : Action) (sc : Script)
        (c : Cmd) :
  (exists resp,
      fst (actionFilter (Some sc) c action) = Ok resp
      /\ PeekSearch resp = EmptyString /\ PeekSearchPrev resp = EmptyString)
  /\ (exists resp,
         fst (actionSearch (Some sc) c action) = Ok resp
         /\ PeekFilter resp = EmptyString).
Proof.
  split; eexists; (split; [reflexivity|]); cbn; auto.
Qed.

(* ================================================================== *)
(** ** Connect                                                         *)
(* ================================================================== *)

(** What the Connect handler does, in every case.  The error of the
    connection attempt is tested first (line 210): a failed attempt brings
    up the retry modal whether or not the user has cancelled the spinner,
    and Retry gives Connect, anything else Quit.  The test of [userQuit]
    (line 227) is reached only when the attempt succeeds: a cancelled
    spinner then gives Quit and an untouched one Select.  If the
    connection is refused twice, the user retries twice and the third
    attempt succeeds untouched, [run] is called three times with Connect,
    then with Select, and never with Connect again. *)
Theorem connect_outcomes (Sprintf0 : string -> string) (sc : Script)
        (c : Cmd) (action : Action) (sc1 sc2 sc3 : Script)
        (world : list Script) :
  fst (actionConnect (Some sc) c action)
  = Ok (justStep
          (if connects sc
           then if userQuit sc then StepQuit else StepSelect
           else if Z.eqb (retryButton sc) 0 then StepConnect else StepQuit))
  /\ (connects sc1 = false -> retryButton sc1 = 0%Z ->
      connects sc2 = false -> retryButton sc2 = 0%Z ->
      connects sc3 = true -> userQuit sc3 = false ->
      calls (Run Sprintf0 (sc1 :: sc2 :: sc3 :: world) c)
      = (1, StepConnect) :: (2, StepConnect) :: (3, StepConnect)
        :: calls (run Sprintf0 world 4 (set_api c true) (justStep StepSelect))
      /\ hd_error (steps (run Sprintf0 world 4 (set_api c true)
                              (justStep StepSelect)))
         = Some StepSelect
      /\ filter isConnect
                (steps (run Sprintf0 world 4 (set_api c true)
                            (justStep StepSelect)))
         = []).
Proof.
  split.
  - unfold actionConnect, await, connect, connects, DisplayRetryModal.
    destruct (api_New sc); [destruct (Z.eqb (retryButton sc) 0); reflexivity|].
    destruct (api_Test sc); [destruct (Z.eqb (retryButton sc) 0); reflexivity|].
    destruct (userQuit sc); reflexivity.
  - intros F1 R1 F2 R2 S3 Q3.
    assert (retry : forall s k, connects s = false -> retryButton s = 0%Z ->
              actionConnect (Some s) k (justStep StepConnect)
              = (Ok (justStep StepConnect), k)).
    { intros s k F R. unfold actionConnect, await, connect, DisplayRetryModal.
      unfold connects in F. rewrite R.
      destruct (api_New s); [reflexivity|].
      destruct (api_Test s); [reflexivity | discriminate]. }
    assert (success : actionConnect (Some sc3) c (justStep StepConnect)
                      = (Ok (justStep StepSelect), set_api c true)).
    { unfold actionConnect, await, connect. unfold connects in S3. rewrite Q3.
      destruct (api_New sc3); [discriminate|].
      destruct (api_Test sc3); [discriminate | reflexivity]. }
    split; [|split].
    + unfold Run. cbn [run switch justStep Step].
      rewrite (retry sc1 c F1 R1). cbn [run switch justStep Step].
      rewrite (retry sc2 c F2 R2). cbn [run switch justStep Step].
      rewrite success. reflexivity.
    + unfold steps. destruct world as [|w world]; cbn [run switch justStep Step].
      * destruct (actionSelect None _ _) as [[r|e|] k]; reflexivity.
      * destruct (actionSelect (Some w) _ _) as [[r|e|] k]; reflexivity.
    + now apply no_connect_later.
Qed.

Lemma connect_outcomes_witness :
  connects refused = false /\ retryButton refused = 0%Z
  /\ connects quiet = true /\ userQuit quiet = false
  /\ calls (Run (fun s => s) [refused; refused; quiet; picking "orders"] New)
     = (1, StepConnect) :: (2, StepConnect) :: (3, StepConnect)
       :: calls (run (fun s => s) [picking "orders"] 4 (set_api New true)
                     (justStep StepSelect))
  /\ hd_error (steps (run (fun s => s) [picking "orders"] 4 (set_api New true)
                          (justStep StepSelect)))
     = Some StepSelect
  /\ filter isConnect
            (steps (run (fun s => s) [picking "orders"] 4 (set_api New true)
                        (justStep StepSelect)))
     = [].
Proof.
  repeat (split; [reflexivity|]).
  apply (connect_outcomes (fun s => s) quiet New (justStep StepConnect)
                          refused refused quiet [picking "orders"]);
    reflexivity.
Defined.

(** C7, the code at the failing input.  The user cancels the spinner,
    which cancels the context and makes the connection test fail.  The
    handler sets [userQuit] (line 198) and tests it (line 227) to answer
    with Quit, as the claim has it; but the error is tested before it
    (line 210), so that the retry modal comes up and Retry leads to
    Connect, not to Quit. *)
Lemma cancel_then_retry_reconnects :
  let sc := mkScript None (Some (errors_New "context canceled")) None
                     true 0 None (mkFormInput [] Cancel) EmptyString [] in
  userQuit sc = true
  /\ fst (actionConnect (Some sc) New (justStep StepConnect))
     = Ok (justStep StepConnect)
  /\ fst (actionConnect (Some sc) New (justStep StepConnect))
     <> Ok (justStep StepQuit).
Proof. cbv zeta. repeat split; try reflexivity. discriminate. Qed.

(* ================================================================== *)
(** ** The dispatcher                                                  *)
(* ================================================================== *)

(** C8.  A Peek action without a component makes the Peek handler return
    an error, whatever the outside world holds ready and without a view
    being made or changed; [run] wraps the error and returns it at once:
    the run has this one call of [run] and ends with the wrapped error. *)
Theorem empty_component_is_fatal (Sprintf0 : string -> string)
        (world : list Script) (sc : option Script) (depth : nat) (c : Cmd)
        (flt search prev : string) :
  let action := mkAction StepPeek EmptyString flt search prev in
  let bug := errors_New "actionPeek(): bug? PeekComponent cannot be empty" in
  actionPeek Sprintf0 sc c (Some action) = (Err bug, c)
  /\ run Sprintf0 world depth c action
     = mkTrace (Failed (errors_Wrap bug "unable to run action")) c
               [(depth, StepPeek)]
  /\ Error (errors_Wrap bug "unable to run action")
     = "unable to run action: actionPeek(): bug? PeekComponent cannot be empty".
Proof.
  cbv zeta. split; [reflexivity|]. split; [|reflexivity].
  destruct world; reflexivity.
Qed.

(** C9, as the code has it.  [run] is a recursive method: it dispatches the
    step and calls itself on the action the handler returned.  The calls
    nest: the first one runs at the depth [run] was entered at and each
    further one exactly one frame deeper, so the depth of the stack grows
    with the number of actions dispatched. *)
Theorem run_nests (Sprintf0 : string -> string) (world : list Script)
        (depth : nat) (c : Cmd) (action : Action) :
  map fst (calls (run Sprintf0 world depth c action))
  = seq depth (List.length (calls (run Sprintf0 world depth c action)))
  /\ hd_error (calls (run Sprintf0 world depth c action))
     = Some (depth, Step action).
Proof.
  split; [apply run_depths|].
  destruct world as [|sc world]; cbn [run];
    destruct (switch Sprintf0 action) as [h|code|err]; try reflexivity.
  - destruct (h None c) as [[resp|err|] c1]; reflexivity.
  - destruct (h (Some sc) c) as [[resp|err|] c1]; reflexivity.
Qed.

(** C9 as the specification words it fails: no number of frames bounds the
    depth at which [run] executes; a user who keeps retrying a refused
    connection drives it past any bound. *)
Lemma run_stack_unbounded :
  ~ exists bound : nat,
      forall world : list Script,
        Forall (fun call => fst call <= bound)
               (calls (Run (fun s => s) world New)).
Proof.
  intros [bound H]. specialize (H (repeat refused bound)).
  unfold Run in H. rewrite retry_calls in H.
  rewrite Forall_forall in H.
  specialize (H (1 + bound, StepConnect)). cbn [fst] in H.
  assert (I : In (1 + bound, StepConnect)
                 (map (fun d => (d, StepConnect)) (seq 1 (S bound)))).
  { apply in_map_iff. exists (1 + bound). split; [reflexivity|].
    apply in_seq. lia. }
  specialize (H I). lia.
Qed.

(* ================================================================== *)
(** ** Beyond the claims: the loop of [peek]                           *)
(* ================================================================== *)

Section LoopFacts.

Variable Sprintf0 : string -> string.

Lemma dataLine_title (action : Action) (n i : nat) (tv : TextView)
      (t : string) :
  tv_title (dataLine action n i tv t) = tv_title tv.
Proof.
  unfold dataLine.
  destruct (negb (Contains _ (PeekFilter action))); reflexivity.
Qed.

(** The commands of the peek view. *)
Lemma keyAction_cases (title : string) (k : ascii) (cmd : Action) :
  keyAction title k = Some cmd ->
  allowed StepPeek (Step cmd) = true /\ isConnect (Step cmd) = false.
Proof.
  unfold keyAction.
  destruct (Ascii.eqb k "q"); [intros [= <-]; now split|].
  destruct (Ascii.eqb k "s"); [intros [= <-]; now split|].
  destruct (Ascii.eqb k "p"); [intros [= <-]; now split|].
  destruct (Ascii.eqb k "f"); [intros [= <-]; now split|].
  destruct (Ascii.eqb k "/"); [intros [= <-]; now split|].
  discriminate.
Qed.

Lemma firstCommand_cases (title : string) (evs : list PeekEvent) (cmd : Action) :
  firstCommand title evs = Some cmd -> allowed StepPeek (Step cmd) = true.
Proof.
  induction evs as [|[k t|n t|] evs IH]; cbn [firstCommand];
    [discriminate| |exact IH|exact IH].
  destruct (keyAction title k) eqn:K; [|exact IH].
  intros [= <-]. now apply (keyAction_cases title k).
Qed.

(** The loop returns the first command sent, with the settings of the
    session on it, and waits when none is sent. *)
Lemma peekLoop_result (action : Action) (evs : list PeekEvent) :
  forall (i : nat) (c : Cmd) (tv : TextView),
    fst (fst (peekLoop action evs i c tv))
    = match firstCommand (tv_title tv) evs with
      | Some cmd => Ok (reinject cmd action)
      | None => Blocked
      end.
Proof.
  induction evs as [|[k t|n t|] evs IH]; intros i c tv;
    cbn [peekLoop firstCommand].
  - reflexivity.
  - destruct (keyAction (tv_title tv) k) as [cmd|]; [|apply IH].
    destruct (isPause (Step cmd)); [destruct (pauseCommand c tv t)|]; reflexivity.
  - rewrite IH, dataLine_title. reflexivity.
  - apply IH.
Qed.

Lemma announce_title (action : Action) (c : Cmd) (tv : TextView) (t : string) :
  tv_title (snd (announce Sprintf0 action c tv t)) = tv_title tv.
Proof. unfold announce. destruct (announceFilter c); reflexivity. Qed.

Lemma DisplayPeek_title (pagePeek : option TextView) (title : string)
      (maxLines : nat) :
  tv_title (DisplayPeek pagePeek title maxLines) = title.
Proof. destruct pagePeek; reflexivity. Qed.

(** What the Peek handler returns for an action with a component. *)
Lemma actionPeek_result (sc : Script) (c : Cmd) (a : Action) :
  PeekComponent a <> EmptyString ->
  fst (actionPeek Sprintf0 (Some sc) c (Some a))
  = match firstCommand (PeekComponent a) (events sc) with
    | Some cmd => Ok (reinject cmd a)
    | None => Blocked
    end.
Proof.
  intros N. apply eqb_empty_false in N. unfold actionPeek, peek. rewrite N.
  pose proof (announce_title a (set_textview c
     (Some (DisplayPeek (textview c) (PeekComponent a) (maxOutputLines c))))
     (DisplayPeek (textview c) (PeekComponent a) (maxOutputLines c))
     (now sc)) as T.
  destruct (announce Sprintf0 a _ _ (now sc)) as [c1 tv1]. cbn [snd] in T.
  rewrite DisplayPeek_title in T.
  match goal with
  | |- context [peekLoop a ?evs ?i ?k ?tv] =>
      pose proof (peekLoop_result a evs i k tv) as P;
      assert (Tv : tv_title tv = PeekComponent a)
        by (destruct (negb _ || negb _); [cbn [SetText tv_title]|]; exact T);
      rewrite Tv in P;
      destruct (peekLoop a evs i k tv) as [[r c2] tv2]
  end.
  cbn [fst] in P. subst r.
  destruct (firstCommand (PeekComponent a) (events sc)); reflexivity.
Qed.

Lemma actionPeek_waits (c : Cmd) (a : Action) :
  PeekComponent a <> EmptyString ->
  fst (actionPeek Sprintf0 None c (Some a)) = Blocked.
Proof.
  intros N. apply eqb_empty_false in N. unfold actionPeek, peek. now rewrite N.
Qed.

End LoopFacts.

(* ================================================================== *)
(** ** Beyond the claims: the steps of a run                           *)
(* ================================================================== *)

Section RunFacts.

Variable Sprintf0 : string -> string.

Lemma actionPeek_empty (sc : option Script) (c : Cmd) (a : Action) :
  PeekComponent a = EmptyString ->
  actionPeek Sprintf0 sc c (Some a)
  = (Err (errors_New "actionPeek(): bug? PeekComponent cannot be empty"), c).
Proof. intros E. unfold actionPeek. now rewrite E. Qed.

(** What the Peek handler can return, with or without a script. *)
Lemma actionPeek_cases (sc : option Script) (c : Cmd) (a : Action) :
  (PeekComponent a = EmptyString
   /\ fst (actionPeek Sprintf0 sc c (Some a))
      = Err (errors_New "actionPeek(): bug? PeekComponent cannot be empty"))
  \/ (PeekComponent a <> EmptyString
      /\ (fst (actionPeek Sprintf0 sc c (Some a)) = Blocked
          \/ exists cmd title,
               firstCommand title (match sc with
                                   | Some s => events s
                                   | None => []
                                   end) = Some cmd
               /\ fst (actionPeek Sprintf0 sc c (Some a))
                  = Ok (reinject cmd a))).
Proof.
  destruct (PeekComponent a =? EmptyString) eqn:E.
  - left. apply eqb_empty in E. split; [exact E|].
    now rewrite actionPeek_empty.
  - right. apply eqb_empty_false in E. split; [exact E|].
    destruct sc as [sc|].
    + rewrite (actionPeek_result Sprintf0 sc c a E).
      destruct (firstCommand (PeekComponent a) (events sc)) as [cmd|] eqn:F.
      * right. exists cmd, (PeekComponent a). now split.
      * now left.
    + left. now apply actionPeek_waits.
Qed.

Lemma switch_cases (action : Action) :
  match switch Sprintf0 action with
  | Handler _ => isQuit (Step action) = false
  | OsExit code => code = 0%Z /\ Step action = StepQuit
  | Unknown _ => isQuit (Step action) = false /\ wellFormed action = false
  end.
Proof.
  unfold switch, wellFormed. destruct (Step action); cbn; auto.
Qed.

(** A handler hands [run] only a step that is allowed after its own. *)
Lemma handler_allowed (action resp : Action) (sc : option Script) (c : Cmd)
      (h : option Script -> Cmd -> result Action * Cmd) :
  switch Sprintf0 action = Handler h ->
  fst (h sc c) = Ok resp ->
  allowed (Step action) (Step resp) = true.
Proof.
  unfold switch. intros S.
  assert (peekCase : fst (actionPeek Sprintf0 sc c (Some action)) = Ok resp ->
                     allowed StepPeek (Step resp) = true).
  { intros H.
    destruct (actionPeek_cases sc c action) as [[_ E]|[_ [E|[cmd [t [F E]]]]]];
      rewrite E in H; try discriminate.
    injection H as <-. cbn [reinject Step]. exact (firstCommand_cases t _ cmd F). }
  destruct (Step action) eqn:E; try discriminate; injection S as <-.
  - unfold actionConnect, await. destruct sc as [sc|]; [|discriminate].
    destruct (connect sc c) as [[err|] c1].
    + destruct (DisplayRetryModal (retryButton sc)); cbn; now intros [= <-].
    + destruct (userQuit sc); cbn; now intros [= <-].
  - unfold actionSelect, await. destruct sc as [sc|]; [|discriminate].
    destruct (api_GetAllLiveAudiences sc).
    + destruct (DisplayRetryModal (retryButton sc)); cbn; now intros [= <-].
    + destruct (userQuit sc); [cbn; now intros [= <-]|].
      destruct (picked sc); cbn; now intros [= <-].
  - exact peekCase.
  - unfold actionFilter, await. destruct sc as [sc|]; [|discriminate].
    cbn. now intros [= <-].
  - unfold actionSearch, await. destruct sc as [sc|]; [|discriminate].
    cbn. now intros [= <-].
  - exact peekCase.
Qed.

(** A handler given a well-formed action returns no error, and the action
    it returns is well formed, unless it is the Peek action for an empty
    component picked in the select list. *)
Lemma handler_wellFormed (action : Action) (sc : option Script) (c : Cmd)
      (h : option Script -> Cmd -> result Action * Cmd) :
  wellFormed action = true ->
  switch Sprintf0 action = Handler h ->
  match fst (h sc c) with
  | Ok resp =>
      wellFormed resp = true
      \/ (Step resp = StepPeek /\ PeekComponent resp = EmptyString
          /\ exists s, sc = Some s /\ picksNothing s = true)
  | Err _ => False
  | Blocked => True
  end.
Proof.
  unfold switch. intros W S.
  assert (peekCase : negb (PeekComponent action =? EmptyString) = true ->
            match fst (actionPeek Sprintf0 sc c (Some action)) with
            | Ok resp =>
                wellFormed resp = true
                \/ (Step resp = StepPeek /\ PeekComponent resp = EmptyString
                    /\ exists s, sc = Some s /\ picksNothing s = true)
            | Err _ => False
            | Blocked => True
            end).
  { intros N. apply negb_true_iff, eqb_empty_false in N.
    destruct (actionPeek_cases sc c action) as [[E _]|[_ [E|[cmd [t [F E]]]]]];
      [contradiction| |]; rewrite E; [exact I|].
    left. unfold wellFormed. cbn [reinject Step PeekComponent].
    pose proof (firstCommand_cases t _ cmd F) as A.
    apply eqb_empty_false in N. rewrite N.
    destruct (Step cmd); cbn in A |- *; congruence. }
  unfold wellFormed in W.
  destruct (Step action) eqn:E; try discriminate; injection S as <-.
  - unfold actionConnect, await. destruct sc as [sc|]; [|exact I].
    destruct (connect sc c) as [[err|] c1].
    + destruct (DisplayRetryModal (retryButton sc)); cbn; now left.
    + destruct (userQuit sc); cbn; now left.
  - unfold actionSelect, await. destruct sc as [sc|]; [|exact I].
    destruct (api_GetAllLiveAudiences sc).
    + destruct (DisplayRetryModal (retryButton sc)); cbn; now left.
    + destruct (userQuit sc); [cbn; now left|].
      destruct (picked sc) as [component|] eqn:P; [|cbn; now left].
      cbn [fst]. unfold wellFormed. cbn [Step PeekComponent].
      destruct (component =? EmptyString) eqn:C; [|now left].
      right. apply eqb_empty in C. subst component.
      split; [reflexivity|]. split; [reflexivity|].
      exists sc. split; [reflexivity|]. unfold picksNothing. now rewrite P.
  - now apply peekCase.
  - unfold actionFilter, await. destruct sc as [sc|]; [|exact I].
    cbn [fst]. left. unfold wellFormed. cbn [Step PeekComponent]. exact W.
  - unfold actionSearch, await. destruct sc as [sc|]; [|exact I].
    cbn [fst]. left. unfold wellFormed. cbn [Step PeekComponent]. exact W.
  - now apply peekCase.
Qed.

Lemma steps_head (world : list Script) (depth : nat) (c : Cmd)
      (action : Action) :
  exists rest,
    steps (run Sprintf0 world depth c action) = Step action :: rest.
Proof.
  unfold steps.
  destruct world as [|sc world]; cbn [run];
    destruct (switch Sprintf0 action) as [h|code|err];
    try (eexists; reflexivity).
  - destruct (h None c) as [[resp|err|] c1]; eexists; reflexivity.
  - destruct (h (Some sc) c) as [[resp|err|] c1]; eexists; reflexivity.
Qed.

Lemma run_empty_peek (world : list Script) (depth : nat) (c : Cmd)
      (action : Action) :
  Step action = StepPeek -> PeekComponent action = EmptyString ->
  outcome (run Sprintf0 world depth c action) = Failed emptyComponentError.
Proof.
  intros S E.
  destruct world as [|sc world]; cbn [run]; unfold switch; rewrite S;
    rewrite (actionPeek_empty _ c action E); reflexivity.
Qed.

End RunFacts.

(** X1.  The steps of a run follow the screens of the program: after
    Connect comes Connect, Select or Quit; after Select comes Select, Peek
    or Quit; after Peek or Pause comes Quit, Select, Pause, Filter or
    Search; after Filter and after Search comes Peek; nothing comes after
    Quit or after an unknown step. *)
Theorem run_follows_the_screens (Sprintf0 : string -> string)
        (world : list Script) (depth : nat) (c : Cmd) (action : Action) :
  follows (steps (run Sprintf0 world depth c action)) = true.
Proof.
  revert depth c action. unfold steps.
  induction world as [|sc world IH]; intros depth c action; cbn [run];
    pose proof (handler_allowed Sprintf0 action) as A;
    destruct (switch Sprintf0 action) as [h|code|err]; try reflexivity.
  - destruct (h None c) as [[resp|err|] c1]; reflexivity.
  - specialize A with (sc := Some sc) (c := c) (h := h).
    destruct (h (Some sc) c) as [[resp|err|] c1]; try reflexivity.
    cbn [calls map snd].
    destruct (steps_head Sprintf0 world (S depth) c1 resp) as [rest R].
    unfold steps in R. specialize (IH (S depth) c1 resp).
    rewrite R in IH |- *.
    change (allowed (Step action) (Step resp) && follows (Step resp :: rest)
            = true).
    rewrite IH, A by auto. reflexivity.
Qed.

(** X3.  A run ends with an exit exactly when its last step is Quit; Quit
    is never followed by another step, and the exit code is 0. *)
Theorem quit_ends_the_run (Sprintf0 : string -> string)
        (world : list Script) (depth : nat) (c : Cmd) (action : Action) :
  let t := run Sprintf0 world depth c action in
  exited (outcome t) = isQuit (last (steps t) StepConnect)
  /\ filter isQuit (removelast (steps t)) = []
  /\ match outcome t with
     | Exited code => code = 0%Z
     | _ => True
     end.
Proof.
  cbv zeta. revert depth c action. unfold steps.
  induction world as [|sc world IH]; intros depth c action; cbn [run];
    pose proof (switch_cases Sprintf0 action) as SC;
    destruct (switch Sprintf0 action) as [h|code|err].
  - destruct (h None c) as [[resp|err|] c1]; cbn; now rewrite SC.
  - destruct SC as [-> ->]. now cbn.
  - destruct SC as [SC _]. cbn. now rewrite SC.
  - destruct (h (Some sc) c) as [[resp|err|] c1]; try (cbn; now rewrite SC).
    cbn [calls outcome map snd].
    destruct (steps_head Sprintf0 world (S depth) c1 resp) as [rest R].
    unfold steps in R. destruct (IH (S depth) c1 resp) as [I1 [I2 I3]].
    rewrite R in I1, I2 |- *.
    split; [exact I1|]. split; [|exact I3].
    change (removelast (Step action :: Step resp :: rest))
      with (Step action :: removelast (Step resp :: rest)).
    cbn [filter]. now rewrite SC.
  - destruct SC as [-> ->]. now cbn.
  - destruct SC as [SC _]. cbn. now rewrite SC.
Qed.

(** X2.  [Run] returns an error in one case only: a component with an empty
    name was picked in the select list.  The error is then the wrapped
    complaint of the Peek handler. *)
Theorem run_fails_only_on_an_empty_pick (Sprintf0 : string -> string)
        (world : list Script) (c : Cmd) (err : error) :
  outcome (Run Sprintf0 world c) = Failed err ->
  err = emptyComponentError /\ existsb picksNothing world = true.
Proof.
  unfold Run.
  assert (G : forall world depth c action,
             wellFormed action = true ->
             outcome (run Sprintf0 world depth c action) = Failed err ->
             err = emptyComponentError /\ existsb picksNothing world = true).
  { clear world c.
    induction world as [|sc world IH]; intros depth c action W; cbn [run];
      pose proof (handler_wellFormed Sprintf0 action) as HW;
      pose proof (switch_cases Sprintf0 action) as SC;
      destruct (switch Sprintf0 action) as [h|code|e];
      try discriminate; try (destruct SC; congruence).
    - specialize (HW None c h W eq_refl).
      destruct (h None c) as [[resp|e|] c1]; [discriminate|contradiction|discriminate].
    - specialize (HW (Some sc) c h W eq_refl).
      destruct (h (Some sc) c) as [[resp|e|] c1];
        [|contradiction|discriminate].
      cbn [outcome fst] in *. intros F.
      destruct HW as [W'|[St [E [s [[= <-] P]]]]].
      + destruct (IH _ _ _ W' F) as [-> X]. split; [reflexivity|].
        cbn [existsb]. now rewrite X, orb_true_r.
      + rewrite (run_empty_peek Sprintf0 world (S depth) c1 resp St E) in F.
        injection F as <-. split; [reflexivity|]. cbn [existsb]. now rewrite P. }
  now apply G.
Qed.

Lemma run_fails_only_on_an_empty_pick_witness :
  outcome (Run (fun s => s) [quiet; picking EmptyString] New)
  = Failed emptyComponentError
  /\ existsb picksNothing [quiet; picking EmptyString] = true.
Proof.
  split; [reflexivity|].
  apply (run_fails_only_on_an_empty_pick (fun s => s)
           [quiet; picking EmptyString] New emptyComponentError).
  reflexivity.
Defined.

(* ================================================================== *)
(** ** Beyond the claims: what [peek] writes                           *)
(* ================================================================== *)

Section ViewFacts.

Lemma uint_no_space (d : Decimal.uint) :
  occurs space (NilEmpty.string_of_uint d) = false.
Proof. induction d; cbn; auto. Qed.

(** The decimal form of a counter has no space in it. *)
Lemma dec_no_space (n : nat) : occurs space (dec n) = false.
Proof.
  unfold dec, NilZero.string_of_uint.
  destruct (Nat.to_uint n) eqn:E; try reflexivity;
    rewrite <- E; apply uint_no_space.
Qed.

Lemma pauseCommand_announce (c : Cmd) (tv : TextView) (t : string) :
  announceFilter (fst (pauseCommand c tv t)) = announceFilter c.
Proof.
  unfold pauseCommand. cbn [fst paused set_paused].
  destruct (negb (paused c)); reflexivity.
Qed.

End ViewFacts.

(** X4.  For an action with a component, the Peek handler returns the first
    command a key of the peek view sends, with the component, the filter,
    the search and the previous search of the session on it; lines and
    other keys do not end it, it returns no error, and it waits as long as
    no such key is pressed. *)
Theorem peek_returns_the_first_command (Sprintf0 : string -> string)
        (sc : Script) (c : Cmd) (a : Action) :
  PeekComponent a <> EmptyString ->
  fst (actionPeek Sprintf0 (Some sc) c (Some a))
  = match firstCommand (PeekComponent a) (events sc) with
    | Some cmd =>
        Ok (mkAction (Step cmd) (PeekComponent a) (PeekFilter a)
                     (PeekSearch a) (PeekSearchPrev a))
    | None => Blocked
    end.
Proof. intros N. now rewrite actionPeek_result. Qed.

Lemma peek_returns_the_first_command_witness :
  fst (actionPeek (fun s => s)
         (Some (peeking "12:00:00"
                        [DataLine 1 "12:00:01"; Advance; KeyPress "x" "12:00:02";
                         KeyPress "s" "12:00:03"; KeyPress "q" "12:00:04"]))
         New (Some (mkAction StepPeek "orders" "1" "foo" "bar")))
  = Ok (mkAction StepSelect "orders" "1" "foo" "bar").
Proof.
  apply (peek_returns_the_first_command (fun s => s)
           (peeking "12:00:00"
                    [DataLine 1 "12:00:01"; Advance; KeyPress "x" "12:00:02";
                     KeyPress "s" "12:00:03"; KeyPress "q" "12:00:04"])
           New (mkAction StepPeek "orders" "1" "foo" "bar")).
  discriminate.
Defined.

(* ================================================================== *)
(** ** Beyond the claims: the spinner and the select list              *)
(* ================================================================== *)

Section ModalFacts.

Lemma animate_frames (msg : string) (evs : list SpinEvent) :
  forall iter : nat,
    iter <= 10 ->
    animate msg evs iter
    = Some (map (fun k => msg ++ "[gray]"
                          ++ nth ((iter + k) mod 10) animationElements EmptyString
                          ++ "[white]")
                (seq 0 (ticks evs))).
Proof.
  induction evs as [|[|] evs IH]; intros iter L; [reflexivity| |reflexivity].
  cbn [animate ticks].
  change (List.length animationElements) with 10.
  set (iter1 := if Nat.eqb iter 10 then 0 else iter).
  assert (I : iter1 < 10 /\ iter1 = iter mod 10).
  { unfold iter1. destruct (Nat.eqb iter 10) eqn:E.
    - apply Nat.eqb_eq in E. subst iter. split; [lia | reflexivity].
    - apply Nat.eqb_neq in E. split; [lia|].
      symmetry. apply Nat.mod_small. lia. }
  destruct I as [I1 I2].
  rewrite (nth_error_nth' animationElements EmptyString) by exact I1.
  rewrite IH by lia. cbn [option_map]. f_equal.
  cbn [seq map]. f_equal.
  - now rewrite Nat.add_0_r, <- I2.
  - rewrite <- seq_shift, map_map. apply map_ext. intros k.
    do 3 f_equal. rewrite I2.
    replace (iter + S k) with (iter + (1 + k)) by lia.
    rewrite Nat.add_assoc.
    rewrite <- (Nat.Div0.add_mod_idemp_l (iter + 1) k 10).
    rewrite <- (Nat.Div0.add_mod_idemp_l iter 1 10).
    rewrite (Nat.Div0.add_mod_idemp_l (iter mod 10 + 1) k 10).
    reflexivity.
Qed.

Lemma shortcut_runs (j : nat) :
  forall start : nat,
    9 <= start ->
    map (fun k => if Nat.leb 9 k then "0"%char else nth k shortcuts "0"%char)
        (seq start j)
    = repeat "0"%char j.
Proof.
  induction j as [|j IH]; intros start L; [reflexivity|].
  cbn [seq map repeat]. rewrite IH by lia.
  destruct (Nat.leb 9 start) eqn:E; [reflexivity|].
  apply Nat.leb_gt in E. lia.
Qed.

Lemma addItems_shape (itemMap : list (string * string)) :
  forall i : nat,
    addItems itemMap i
    = map (fun p => mkListItem (fst (snd p)) (snd (snd p))
                      (if Nat.leb 9 (fst p) then "0"%char
                       else nth (fst p) shortcuts "0"%char))
          (combine (seq i (List.length itemMap)) itemMap).
Proof.
  induction itemMap as [|[name desc] rest IH]; intros i; [reflexivity|].
  cbn [addItems List.length seq combine map fst snd].
  rewrite IH, Nat.add_1_r. reflexivity.
Qed.

Lemma combine_seq_fst {A : Type} (l : list A) :
  forall i : nat,
    map fst (combine (seq i (List.length l)) l) = seq i (List.length l).
Proof.
  induction l as [|x l IH]; intros i; [reflexivity|].
  cbn [List.length seq combine map fst]. now rewrite IH.
Qed.

End ModalFacts.

(** X11.  The spinner never reads past its ten frames: whatever ticks and
    stop words arrive, the animation does not panic, and at its k-th tick
    (from 0) it shows the frame number k modulo 10 behind the message,
    until it is told to stop. *)
Theorem spinner_stays_in_range (msg : string) (evs : list SpinEvent) :
  DisplayInfoModal msg evs
  = Some (map (fun k => (msg ++ " ") ++ "[gray]"
                        ++ nth (k mod 10) animationElements EmptyString
                        ++ "[white]")
              (seq 0 (ticks evs))).
Proof.
  unfold DisplayInfoModal. rewrite animate_frames by lia. reflexivity.
Qed.

(** X12.  The select list gives the first nine items the shortcuts 1 to 9
    in the order in which the map is ranged over, and every further item
    the shortcut 0; each item keeps its name and description, and
    selecting the item at a position sends the name of that item. *)
Theorem select_list_shortcuts (itemMap : list (string * string)) (k : nat) :
  map item_shortcut (DisplaySelectList itemMap)
  = (firstn (List.length itemMap) shortcuts
     ++ repeat "0"%char (List.length itemMap - 9))%list
  /\ map (fun it => (item_name it, item_desc it)) (DisplaySelectList itemMap)
     = itemMap
  /\ selectItem (DisplaySelectList itemMap) k
     = option_map fst (nth_error itemMap k).
Proof.
  unfold DisplaySelectList.
  assert (N : map (fun it => (item_name it, item_desc it)) (addItems itemMap 0)
              = itemMap).
  { generalize 0. induction itemMap as [|[name desc] rest IH]; intros i;
      [reflexivity|]. cbn [addItems map item_name item_desc]. now rewrite IH. }
  split; [|split; [exact N|]].
  - rewrite addItems_shape, map_map. cbn [item_shortcut].
    rewrite <- (map_map fst (fun k => if Nat.leb 9 k then "0"%char
                                     else nth k shortcuts "0"%char)).
    rewrite combine_seq_fst. clear N.
    destruct (Nat.le_gt_cases (List.length itemMap) 9) as [L|L].
    + replace (List.length itemMap - 9) with 0 by lia.
      cbn [repeat]. rewrite app_nil_r.
      remember (List.length itemMap) as n eqn:Hn. clear Hn.
      do 10 (destruct n as [|n]; [reflexivity|]). lia.
    + remember (List.length itemMap) as n eqn:Hn. clear Hn.
      assert (J : exists j, n = 9 + j) by (exists (n - 9); lia).
      destruct J as [j ->].
      rewrite seq_app, map_app, (shortcut_runs j (0 + 9)) by lia.
      rewrite firstn_all2 by (cbn; lia).
      replace (9 + j - 9) with j by lia. reflexivity.
  - unfold selectItem. rewrite <- N at 2.
    rewrite nth_error_map. destruct (nth_error (addItems itemMap 0) k); reflexivity.
Qed.

(* ================================================================== *)
(** ** Beyond the claims: the content fields after a rescan            *)
(* ================================================================== *)

Section ContentsFacts.

Lemma contentOf_rewritten (s p l : string) :
  contentOf (rewritten s p l) = map (updatedContent s p) (contentOf l).
Proof.
  unfold contentOf at 2.
  destruct (l =? EmptyString) eqn:E.
  - apply eqb_empty in E. subst l. reflexivity.
  - apply eqb_empty_false in E.
    pose proof (rewritten_nonempty s p l E) as R. apply eqb_empty_false in R.
    unfold contentOf. rewrite R.
    destruct (SplitN l space 3) as [|f0 [|f1 [|f2 [|x r]]]] eqn:F;
      try (rewrite (rewritten_short s p l) by (rewrite F; cbn; lia);
           now rewrite F).
    + now rewrite (rewritten_fields s p l f0 f1 f2 F).
    + unfold rewritten. rewrite F. now rewrite F.
Qed.

Lemma contents_rewritten (s p : string) (L : list string) :
  flat_map contentOf (map (rewritten s p) (filter nonempty L))
  = map (updatedContent s p) (flat_map contentOf L).
Proof.
  induction L as [|l L IH]; [reflexivity|].
  cbn [filter flat_map]. rewrite map_app, <- IH, <- contentOf_rewritten.
  unfold nonempty at 1. destruct (l =? EmptyString) eqn:E; [|reflexivity].
  apply eqb_empty in E. subst l. reflexivity.
Qed.

Lemma contents_updatedData (s p text : string) :
  contents (updatedData s p text) = map (updatedContent s p) (contents text).
Proof.
  unfold contents. rewrite Split_updatedData, flat_map_app, contents_rewritten.
  cbn [flat_map]. now rewrite !app_nil_r.
Qed.

(** A content field that holds the search after the rescan holds it
    highlighted. *)
Lemma updatedContent_marked (s p c : string) :
  s <> EmptyString ->
  Contains (updatedContent s p c) s = true ->
  Contains (updatedContent s p c) (SearchHighlightFmt s) = true.
Proof.
  intros N. unfold updatedContent, markSearch.
  destruct (negb (s =? EmptyString)
            && negb (Contains (clearPrev p c) (SearchHighlightFmt s))
            && Contains (clearPrev p c) s) eqn:G.
  - intros _. apply andb_true_iff in G as [_ G]. now apply Replace_has_new.
  - intros H. rewrite H, andb_true_r in G.
    apply eqb_empty_false in N. rewrite N in G. cbn [negb andb] in G.
    now apply negb_false_iff in G.
Qed.

End ContentsFacts.

(** X13.  The rescan works on the content fields one by one: the content
    fields of the text after it are those of the text before it, each put
    through the clearing of the previous search and the highlighting of the
    new one.  With a search set, every content field that holds the search
    afterwards holds a highlighted occurrence of it. *)
Theorem rescan_acts_on_contents (search prev text : string) :
  contents (rescan search prev text)
  = map (updatedContent search prev) (contents text)
  /\ (negb (search =? EmptyString) = true ->
      forallb (fun c => implb (Contains c search)
                              (Contains c (SearchHighlightFmt search)))
              (contents (rescan search prev text)) = true).
Proof.
  assert (C : contents (rescan search prev text)
              = map (updatedContent search prev) (contents text)).
  { unfold rescan.
    destruct (search =? EmptyString) eqn:Es, (prev =? EmptyString) eqn:Ep;
      cbn [negb orb]; try apply contents_updatedData.
    apply eqb_empty in Es, Ep. subst search prev.
    rewrite <- (map_id (contents text)) at 1. apply map_ext. intros c.
    unfold updatedContent.
    rewrite (clearPrev_none EmptyString) by (left; reflexivity).
    symmetry. apply markSearch_absent. left; reflexivity. }
  split; [exact C|].
  intros N. apply negb_true_iff, eqb_empty_false in N.
  rewrite C. apply forallb_forall. intros c I.
  apply in_map_iff in I as [c0 [<- _]].
  destruct (Contains (updatedContent search prev c0) search) eqn:H;
    [|reflexivity].
  cbn [implb]. now apply updatedContent_marked.
Qed.

Lemma rescan_acts_on_contents_witness :
  let text := "1: t foo and [blue:gray]bar[-:-]" ++ nl ++ "banner" ++ nl
              ++ "2: t nothing here" ++ nl in
  contents (rescan "foo" "bar" text)
  = ["[blue:gray]foo[-:-] and bar"; "nothing here"]
  /\ forallb (fun c => implb (Contains c "foo")
                             (Contains c (SearchHighlightFmt "foo")))
             (contents (rescan "foo" "bar" text)) = true.
Proof.
  cbv zeta. split; [vm_compute; reflexivity|].
  apply (rescan_acts_on_contents "foo" "bar"). reflexivity.
Defined.

(* ================================================================== *)
(** ** Beyond the claims: newlines behind a text                       *)
(* ================================================================== *)

Section NewlineFacts.

Lemma Repeat_nl_snoc (k : nat) : Repeat nl (S k) = Repeat nl k ++ nl.
Proof.
  induction k as [|k IH]; [reflexivity|].
  change (Repeat nl (S (S k))) with (nl ++ Repeat nl (S k)).
  rewrite IH at 1. reflexivity.
Qed.

Lemma readBack_nonempty (held : string) :
  held <> EmptyString -> readBack held = held ++ nl.
Proof.
  intros N. unfold readBack. apply eqb_empty_false in N. now rewrite N.
Qed.

Lemma app_nonempty (a b : string) : a <> EmptyString -> a ++ b <> EmptyString.
Proof. destruct a; [now intros N; elim N | discriminate]. Qed.

(** What is read back of a text with newlines behind it. *)
Lemma readBack_newlines (m : string) (k : nat) :
  m <> EmptyString -> readBack (m ++ Repeat nl k) = m ++ Repeat nl (S k).
Proof.
  intros N. rewrite readBack_nonempty by now apply app_nonempty.
  now rewrite append_assoc, <- Repeat_nl_snoc.
Qed.

(** A pattern without a newline starts where it starts without the
    newlines behind the text. *)
Lemma prefix_newlines (old s : string) (k : nat) :
  occurs newline old = false ->
  prefix old (s ++ Repeat nl k) = prefix old s.
Proof.
  revert s; induction old as [|a old IH]; intros s H;
    [now rewrite !prefix_nil|].
  cbn [occurs] in H. apply orb_false_iff in H as [Ha H].
  destruct s as [|d s].
  - cbn [append]. destruct k as [|k]; [reflexivity|].
    cbn [Repeat]. unfold nl. cbn [append prefix].
    destruct (ascii_dec a newline) as [->|_]; [|reflexivity].
    rewrite Ascii.eqb_refl in Ha. discriminate.
  - cbn [append prefix]. destruct (ascii_dec a d); [now apply IH | reflexivity].
Qed.

Lemma Contains_newlines (old s : string) (k : nat) :
  old <> EmptyString -> occurs newline old = false ->
  Contains (s ++ Repeat nl k) old = Contains s old.
Proof.
  intros N H. induction s as [|c s IH].
  - cbn [append]. cbn [Contains].
    rewrite (prefix_old_nil old N). cbn [orb].
    induction k as [|k IHk].
    + cbn [Repeat Contains]. now rewrite (prefix_old_nil old N).
    + change (Repeat nl (S k)) with (String newline (Repeat nl k)).
      cbn [Contains]. rewrite IHk, orb_false_r.
      change (String newline (Repeat nl k))
        with (EmptyString ++ Repeat nl (S k)).
      rewrite prefix_newlines by exact H. apply (prefix_old_nil old N).
  - change (String c s ++ Repeat nl k) with (String c (s ++ Repeat nl k)).
    cbn [Contains]. rewrite IH.
    change (String c (s ++ Repeat nl k)) with (String c s ++ Repeat nl k).
    now rewrite prefix_newlines.
Qed.

(** Replacing a pattern without a newline leaves the newlines behind the
    text where they are. *)
Lemma Replace_newlines (old new : string) (k : nat) :
  old <> EmptyString -> occurs newline old = false ->
  forall s,
    Replace (s ++ Repeat nl k) old new = Replace s old new ++ Repeat nl k.
Proof.
  intros N H s. remember (String.length s) as m eqn:L.
  revert s L. induction m as [m IH] using lt_wf_ind. intros s L.
  destruct s as [|c s].
  - cbn [append]. rewrite (Replace_nil old new N). cbn [append].
    apply (Replace_absent old new N).
    change (Repeat nl k) with (EmptyString ++ Repeat nl k).
    rewrite Contains_newlines by assumption.
    cbn [Contains]. now rewrite (prefix_old_nil old N).
  - destruct (prefix old (String c s)) eqn:P.
    + destruct (prefix_inv _ _ P) as [r E]. rewrite E, append_assoc.
      rewrite !(Replace_hit old new N), append_assoc. f_equal.
      apply (IH (String.length r)); [|reflexivity].
      assert (X : String.length (String c s) = String.length (old ++ r))
        by now rewrite E.
      rewrite length_append in X. pose proof (old_length old N). lia.
    + rewrite (Replace_miss old new N c s P).
      change (String c s ++ Repeat nl k) with (String c (s ++ Repeat nl k)).
      rewrite (Replace_miss old new N).
      * cbn [append]. f_equal. apply (IH (String.length s)); [|reflexivity].
        subst m. cbn [String.length]. lia.
      * change (String c (s ++ Repeat nl k)) with (String c s ++ Repeat nl k).
        now rewrite prefix_newlines.
Qed.

(** The pieces of two texts joined by a newline. *)
Lemma Split_join (a b : string) :
  Split (a ++ String newline b) newline
  = (Split a newline ++ Split b newline)%list.
Proof.
  induction a as [|c a IH]; cbn [append Split].
  - now rewrite Ascii.eqb_refl.
  - destruct (Ascii.eqb c newline); [now rewrite IH|].
    rewrite IH. destruct (Split a newline) as [|h t] eqn:S;
      [now apply Split_nonnil in S | reflexivity].
Qed.

Lemma concat_app (l1 l2 : list string) :
  concat (l1 ++ l2) = concat l1 ++ concat l2.
Proof.
  unfold concat. induction l1 as [|x l1 IH]; cbn [app fold_right];
    [reflexivity|]. now rewrite IH, append_assoc.
Qed.

Lemma updatedData_join (s p a b : string) :
  updatedData s p (a ++ String newline b)
  = updatedData s p a ++ updatedData s p b.
Proof. now rewrite !updatedData_concat, Split_join, map_app, concat_app. Qed.

Lemma updatedData_nil (s p : string) : updatedData s p EmptyString = EmptyString.
Proof. reflexivity. Qed.

(** The newline [GetText] adds makes no difference to the rescan. *)
Lemma updatedData_readBack (s p text : string) :
  updatedData s p (readBack text) = updatedData s p text.
Proof.
  unfold readBack. destruct (text =? EmptyString) eqn:E;
    [apply eqb_empty in E; now subst text|].
  now rewrite updatedData_join, updatedData_nil, append_nil_r.
Qed.

(** A line without a newline is one piece for the rescan. *)
Lemma updatedData_line (s p line : string) :
  occurs newline line = false ->
  updatedData s p line = rescanLine s p line.
Proof.
  intros H. rewrite updatedData_concat.
  assert (E : Split line newline = [line]).
  { clear s p. induction line as [|c l IH]; [reflexivity|].
    cbn [occurs] in H. apply orb_false_iff in H as [Hc H].
    cbn [Split]. rewrite Hc, (IH H). reflexivity. }
  rewrite E. cbn. apply append_nil_r.
Qed.

End NewlineFacts.

(* ================================================================== *)
(** ** Beyond the claims: the menu                                     *)
(* ================================================================== *)

Section MenuFacts.

Variable Sprintf0 : string -> string.

Lemma menuState_nonempty (f s p : bool) : menuState f s p <> EmptyString.
Proof. discriminate. Qed.

(** Replacing one form of an entry by the other changes that entry of the
    menu and no other. *)
Lemma Replace_menuState (f s p b : bool) :
  Replace (menuState f s p) (menuEntry (negb b) "Filter") (menuEntry b "Filter")
  = menuState b s p
  /\ Replace (menuState f s p) (menuEntry (negb b) "Search")
             (menuEntry b "Search")
     = menuState f b p
  /\ Replace (menuState f s p) (menuEntry (negb b) "Pause")
             (menuEntry b "Pause")
     = menuState f s b.
Proof. destruct f, s, p, b; vm_compute; repeat split; reflexivity. Qed.

Lemma toggle_entries (held item : string) (b : bool) :
  toggleMenuEntry held item b
  = Replace (readBack held) (menuEntry (negb b) item) (menuEntry b item).
Proof. destruct b; reflexivity. Qed.

Lemma menuEntry_plain (b : bool) (item : string) :
  occurs newline item = false ->
  menuEntry b item <> EmptyString /\ occurs newline (menuEntry b item) = false.
Proof.
  intros H. split; [destruct b; discriminate|].
  destruct b; unfold menuEntry; rewrite !occurs_app, H; reflexivity.
Qed.

(** Setting an entry of a menu that has newlines behind it changes that
    entry and puts one more newline behind the menu. *)
Lemma toggle_menuState (f s p b : bool) (k : nat) :
  toggleMenuEntry (menuState f s p ++ Repeat nl k) "Filter" b
  = menuState b s p ++ Repeat nl (S k)
  /\ toggleMenuEntry (menuState f s p ++ Repeat nl k) "Search" b
     = menuState f b p ++ Repeat nl (S k)
  /\ toggleMenuEntry (menuState f s p ++ Repeat nl k) "Pause" b
     = menuState f s b ++ Repeat nl (S k).
Proof.
  rewrite !toggle_entries, (readBack_newlines _ k (menuState_nonempty f s p)).
  destruct (Replace_menuState f s p b) as [RF [RS RP]].
  destruct (menuEntry_plain (negb b) "Filter" eq_refl) as [NF OF].
  destruct (menuEntry_plain (negb b) "Search" eq_refl) as [NS OS].
  destruct (menuEntry_plain (negb b) "Pause" eq_refl) as [NP OP].
  rewrite (Replace_newlines _ (menuEntry b "Filter") (S k) NF OF), RF.
  rewrite (Replace_newlines _ (menuEntry b "Search") (S k) NS OS), RS.
  rewrite (Replace_newlines _ (menuEntry b "Pause") (S k) NP OP), RP.
  repeat split.
Qed.

Lemma menuState_pause (f s p : bool) (k : nat) :
  Contains (menuState f s p ++ Repeat nl k) "[lightcyan]Pause[-]" = p.
Proof.
  rewrite Contains_newlines by (discriminate || reflexivity).
  destruct f, s, p; vm_compute; reflexivity.
Qed.

Lemma pauseCommand_menu (c : Cmd) (tv : TextView) (t : string) :
  menuAgrees c -> menuAgrees (fst (pauseCommand c tv t)).
Proof.
  intros [f [s [k M]]]. exists f, s, (S k). unfold pauseCommand.
  cbn [fst paused set_paused menu set_menu].
  unfold SetMenuEntryOn, SetMenuEntryOff. rewrite M.
  destruct (toggle_menuState f s (paused c) (negb (paused c)) k) as [_ [_ T]].
  destruct (paused c); cbn [negb] in *; exact T.
Qed.

Lemma peekLoop_menu (action : Action) (evs : list PeekEvent) :
  forall (i : nat) (c : Cmd) (tv : TextView),
    menuAgrees c -> menuAgrees (snd (fst (peekLoop action evs i c tv))).
Proof.
  induction evs as [|[k t|n t|] evs IH]; intros i c tv M; cbn [peekLoop].
  - exact M.
  - destruct (keyAction (tv_title tv) k) as [cmd|]; [|now apply IH].
    destruct (isPause (Step cmd)); [|exact M].
    pose proof (pauseCommand_menu c tv t M) as P.
    destruct (pauseCommand c tv t). exact P.
  - now apply IH.
  - now apply IH.
Qed.

Lemma actionPeek_menu (sc : option Script) (c : Cmd) (a : option Action) :
  menuAgrees c -> menuAgrees (snd (actionPeek Sprintf0 sc c a)).
Proof.
  intros M. unfold actionPeek. destruct a as [a|]; [|exact M].
  destruct (PeekComponent a =? EmptyString) eqn:E; [exact M|].
  unfold peek. rewrite E. destruct sc as [sc|]; [|exact M].
  match goal with
  | |- context [announce Sprintf0 a ?k ?v ?t] =>
      assert (Mk : menuAgrees (fst (announce Sprintf0 a k v t)))
        by (unfold announce; cbn [set_textview announceFilter];
            destruct (announceFilter c); exact M);
      destruct (announce Sprintf0 a k v t) as [c1 tv1]
  end.
  cbn [fst] in Mk.
  match goal with
  | |- context [peekLoop a ?evs ?i ?k ?v] =>
      pose proof (peekLoop_menu a evs i k v Mk) as P;
      destruct (peekLoop a evs i k v) as [[r c2] tv2]
  end.
  cbn [fst snd] in P. destruct r; exact P.
Qed.

Lemma handler_menu (action : Action) (sc : option Script) (c : Cmd)
      (h : option Script -> Cmd -> result Action * Cmd) :
  switch Sprintf0 action = Handler h ->
  menuAgrees c -> menuAgrees (snd (h sc c)).
Proof.
  unfold switch. intros Sw M.
  destruct (Step action) eqn:E; try discriminate; injection Sw as <-.
  - unfold actionConnect, await, connect. destruct sc as [sc|]; [|exact M].
    destruct (api_New sc);
      [destruct (DisplayRetryModal (retryButton sc)); exact M|].
    destruct (api_Test sc);
      [destruct (DisplayRetryModal (retryButton sc)); exact M|].
    destruct (userQuit sc); exact M.
  - unfold actionSelect, await. destruct sc as [sc|]; [|exact M].
    destruct (api_GetAllLiveAudiences sc);
      [destruct (DisplayRetryModal (retryButton sc)); exact M|].
    destruct (userQuit sc); [exact M|]. destruct (picked sc); exact M.
  - exact (actionPeek_menu sc c (Some action) M).
  - unfold actionFilter, await. destruct sc as [sc|]; [|exact M].
    destruct M as [f [s [k M]]]. cbn [snd].
    unfold SetMenuEntryOn, SetMenuEntryOff. rewrite M.
    destruct (negb _); eexists; exists s, (S k);
      cbn [menu set_menu set_announceFilter paused];
      apply toggle_menuState.
  - unfold actionSearch, await. destruct sc as [sc|]; [|exact M].
    destruct M as [f [s [k M]]]. cbn [snd].
    unfold SetMenuEntryOn, SetMenuEntryOff. rewrite M.
    destruct (negb _); exists f; eexists; exists (S k);
      cbn [menu set_menu paused];
      apply toggle_menuState.
  - exact (actionPeek_menu sc c (Some action) M).
Qed.

Lemma run_menu (world : list Script) :
  forall (depth : nat) (c : Cmd) (action : Action),
    menuAgrees c -> menuAgrees (final (run Sprintf0 world depth c action)).
Proof.
  induction world as [|sc world IH]; intros depth c action M; cbn [run];
    pose proof (handler_menu action) as H;
    destruct (switch Sprintf0 action) as [h|code|err]; try exact M.
  - specialize (H None c h eq_refl M).
    destruct (h None c) as [[resp|err|] c1]; exact H.
  - specialize (H (Some sc) c h eq_refl M).
    destruct (h (Some sc) c) as [[resp|err|] c1]; try exact H.
    cbn [final]. now apply IH.
Qed.

End MenuFacts.

(** X9.  Whatever happens in a run, the menu view holds one of the eight
    states its Filter, Search and Pause entries can be in, with newlines
    behind it (every change of an entry reads the menu back, which gives
    one newline more than was written, and writes that), and its Pause
    entry is lit exactly when the paused flag is set. *)
Theorem menu_shows_the_paused_flag (Sprintf0 : string -> string)
        (world : list Script) (maxLines : nat) :
  let c := final (Run Sprintf0 world (NewWith maxLines)) in
  (exists (f s : bool) (k : nat),
      menu c = menuState f s (paused c) ++ Repeat nl k)
  /\ Contains (menu c) "[lightcyan]Pause[-]" = paused c.
Proof.
  cbv zeta.
  assert (M : menuAgrees (final (Run Sprintf0 world (NewWith maxLines)))).
  { apply run_menu. exists false, false, 0. reflexivity. }
  split; [exact M|]. destruct M as [f [s [k M]]]. rewrite M.
  apply menuState_pause.
Qed.

(** X10.  Lighting a menu entry and putting it out again does not give the
    menu back but the menu as it reads back twice, which for a menu that
    is not empty is the menu with two newlines behind it: each of the two
    calls writes what [GetText] gave it.  This holds when the menu had no
    lit entry of that name, the lit form of the entry cannot overlap itself
    and the name has no newline in it. *)
Theorem menu_entry_round_trip (menuText item : string) :
  Contains menuText ("[lightcyan]" ++ item ++ "[-]") = false ->
  overlapsItself ("[lightcyan]" ++ item ++ "[-]") = false ->
  occurs newline item = false ->
  SetMenuEntryOff (SetMenuEntryOn menuText item) item
  = readBack (readBack menuText)
  /\ (menuText <> EmptyString ->
      SetMenuEntryOff (SetMenuEntryOn menuText item) item
      = menuText ++ nl ++ nl).
Proof.
  intros C O H.
  assert (E : menuText <> EmptyString ->
              SetMenuEntryOff (SetMenuEntryOn menuText item) item
              = menuText ++ nl ++ nl).
  { intros N. unfold SetMenuEntryOff, SetMenuEntryOn.
    rewrite !toggle_entries. cbn [negb].
    destruct (menuEntry_plain false item H) as [Nd Od].
    destruct (menuEntry_plain true item H) as [Nl Ol].
    rewrite (readBack_nonempty menuText N).
    change (menuText ++ nl) with (menuText ++ Repeat nl 1).
    rewrite (Replace_newlines _ (menuEntry true item) 1 Nd Od).
    rewrite readBack_nonempty
      by (intros Z; apply (f_equal String.length) in Z;
          rewrite length_append in Z; cbn in Z; lia).
    rewrite append_assoc.
    change (Repeat nl 1 ++ nl) with (Repeat nl 2).
    rewrite (Replace_newlines _ (menuEntry false item) 2 Nl Ol).
    unfold menuEntry.
    rewrite (unwrap_wrap ("[darkcyan]" ++ item)
               ("[lightcyan]" ++ item ++ "[-]")
               ltac:(discriminate) ltac:(discriminate) O
               (String.length menuText)); [reflexivity | lia | exact C]. }
  split; [|exact E].
  destruct (menuText =? EmptyString) eqn:Z.
  - apply eqb_empty in Z. subst menuText. reflexivity.
  - apply eqb_empty_false in Z. rewrite (E Z).
    rewrite (readBack_nonempty menuText Z).
    rewrite readBack_nonempty by now apply app_nonempty.
    now rewrite append_assoc.
Qed.

Lemma menu_entry_round_trip_witness :
  SetMenuEntryOn MenuString "Pause" = menuState false false true ++ nl
  /\ SetMenuEntryOff (SetMenuEntryOn MenuString "Pause") "Pause"
     = MenuString ++ nl ++ nl.
Proof.
  split; [vm_compute; reflexivity|].
  apply (menu_entry_round_trip MenuString "Pause");
    [vm_compute; reflexivity | vm_compute; reflexivity | reflexivity
    | discriminate].
Defined.



(* ================================================================== *)
(** ** Beyond the claims: what [peek] writes                           *)
(* ================================================================== *)

Section WriteFacts.

Variable Sprintf0 : string -> string.

Lemma uint_no_newline (d : Decimal.uint) :
  occurs newline (NilEmpty.string_of_uint d) = false.
Proof. induction d; cbn; auto. Qed.

Lemma dec_no_newline (n : nat) : occurs newline (dec n) = false.
Proof.
  unfold dec, NilZero.string_of_uint.
  destruct (Nat.to_uint n) eqn:E; try reflexivity;
    rewrite <- E; apply uint_no_newline.
Qed.

(** The data of a line has no newline unless the component has one. *)
Lemma decorated_no_newline (action : Action) (n : nat) :
  occurs newline (PeekComponent action) = false ->
  Contains (PeekComponent action ++ ": line " ++ dec n) (PeekFilter action)
  = true ->
  occurs newline (decorated action n) = false.
Proof.
  intros H C. unfold decorated.
  assert (D : occurs newline (PeekComponent action ++ ": line " ++ dec n)
              = false)
    by (rewrite !occurs_app, H, dec_no_newline; reflexivity).
  assert (F : occurs newline (PeekFilter action) = false)
    by exact (occurs_Contains newline _ _ C D).
  assert (D1 : occurs newline
                 (if negb (PeekFilter action =? EmptyString)
                  then Replace (PeekComponent action ++ ": line " ++ dec n)
                         (PeekFilter action)
                         ("[green:gray]" ++ PeekFilter action ++ "[-:-]")
                  else PeekComponent action ++ ": line " ++ dec n) = false).
  { destruct (negb (PeekFilter action =? EmptyString)); [|exact D].
    apply occurs_Replace; [exact D|]. rewrite !occurs_app, F. reflexivity. }
  unfold highlightNew.
  destruct (negb (PeekSearch action =? EmptyString)); [|exact D1].
  match goal with
  | |- context [Contains ?d (PeekSearch action)] =>
      destruct (Contains d (PeekSearch action)) eqn:G; [|exact D1]
  end.
  apply occurs_Replace; [exact D1|].
  apply occurs_marker. exact (occurs_Contains newline _ _ G D1).
Qed.

(** A line of the producer is dropped or written as one line. *)
Lemma dataLine_cases (action : Action) (n i : nat) (tv : TextView)
      (t : string) :
  dataLine action n i tv t
  = if passes action (n, i, t)
    then Fprint tv (viewLine action (n, i, t) ++ nl)
    else tv.
Proof.
  unfold dataLine, passes, viewLine, decorated. cbn [fst snd].
  destruct (Contains _ (PeekFilter action)); cbn [negb]; [|reflexivity].
  unfold sp. now rewrite !append_assoc.
Qed.

Lemma unsplit_Split (text : string) : unsplit (Split text newline) = text.
Proof.
  induction text as [|c text IH]; [reflexivity|]. cbn [Split].
  destruct (Ascii.eqb c newline) eqn:E.
  - apply Ascii.eqb_eq in E. subst c. cbn [unsplit].
    destruct (Split text newline) as [|h t] eqn:S;
      [now apply Split_nonnil in S|].
    cbn [append]. now rewrite IH.
  - destruct (Split text newline) as [|h t] eqn:S;
      [now apply Split_nonnil in S|].
    cbn [unsplit] in *. destruct t; cbn [append]; now rewrite IH.
Qed.

(** A text of no more lines than the cap is kept as it is. *)
Lemma evict_short (maxLines : nat) (text : string) :
  List.length (Split text newline) <= S maxLines ->
  evict maxLines text = text.
Proof.
  intros H. destruct maxLines as [|m]; [reflexivity|]. unfold evict.
  change "010"%char with newline.
  assert (Z : List.length (Split text newline) - S (S m) = 0) by lia.
  rewrite Z. apply unsplit_Split.
Qed.


(** As long as no key sends a command, the loop waits, leaves the command
    object alone and writes the lines that pass the filter, in the order
    in which they arrive. *)
Lemma peekLoop_lines (action : Action) (evs : list PeekEvent) :
  forall (i : nat) (c : Cmd) (tv : TextView),
    firstCommand (tv_title tv) evs = None ->
    peekLoop action evs i c tv
    = (Blocked, c,
       fold_left Fprint
                 (map (fun l => viewLine action l ++ nl)
                      (filter (passes action) (stamped evs i)))
                 tv).
Proof.
  induction evs as [|[k t|n t|] evs IH]; intros i c tv F;
    cbn [peekLoop firstCommand stamped] in *.
  - reflexivity.
  - destruct (keyAction (tv_title tv) k); [discriminate|]. now apply IH.
  - rewrite IH by now rewrite dataLine_title.
    rewrite dataLine_cases. cbn [filter].
    destruct (passes action (n, i, t)); reflexivity.
  - now apply IH.
Qed.

(** The loop only writes to the view: it never replaces its text, and it
    leaves the announce flag alone. *)
Lemma peekLoop_writes (action : Action) (evs : list PeekEvent) :
  forall (i : nat) (c : Cmd) (tv : TextView),
    (exists ws, snd (peekLoop action evs i c tv) = fold_left Fprint ws tv)
    /\ announceFilter (snd (fst (peekLoop action evs i c tv)))
       = announceFilter c.
Proof.
  induction evs as [|[k t|n t|] evs IH]; intros i c tv; cbn [peekLoop].
  - split; [now exists []|reflexivity].
  - destruct (keyAction (tv_title tv) k) as [cmd|]; [|apply IH].
    destruct (isPause (Step cmd)).
    + pose proof (pauseCommand_announce c tv t) as P.
      unfold pauseCommand in *. cbn [fst snd] in *.
      split; [|exact P]. eexists [_]. reflexivity.
    + cbn [fst snd]. split; [now exists []|reflexivity].
  - destruct (IH i c (dataLine action n i tv t)) as [[ws W] A].
    split; [|exact A]. rewrite W, dataLine_cases.
    destruct (passes action (n, i, t)).
    + now exists ((viewLine action (n, i, t) ++ nl) :: ws).
    + now exists ws.
  - apply IH.
Qed.

Lemma filterLine_no_percent (f t : string) :
  occurs percent f = false -> occurs percent t = false ->
  occurs percent (filterLine f t ++ nl) = false.
Proof.
  intros Hf Ht. unfold filterLine. rewrite !occurs_app, Hf, Ht. reflexivity.
Qed.

(** What the Peek handler does to the view when no search and no previous
    search is set. *)
Lemma actionPeek_writes (sc : Script) (c : Cmd) (a : Action) :
  PeekComponent a <> EmptyString ->
  PeekSearch a = EmptyString ->
  PeekSearchPrev a = EmptyString ->
  let c' := snd (actionPeek Sprintf0 (Some sc) c (Some a)) in
  let before :=
    DisplayPeek (textview c) (PeekComponent a) (maxOutputLines c) in
  let banner :=
    if announceFilter c
    then [Sprintf0 (filterLine (PeekFilter a) (now sc) ++ nl)] else [] in
  (exists ws, textview c' = Some (fold_left Fprint (banner ++ ws) before))
  /\ announceFilter c' = false.
Proof.
  cbv zeta. intros N S P. apply eqb_empty_false in N.
  unfold actionPeek, peek. rewrite N, S, P. cbn [String.eqb negb orb].
  unfold announce.
  set (tv := DisplayPeek (textview c) (PeekComponent a) (maxOutputLines c)).
  set (c1 := set_textview c (Some tv)).
  change (announceFilter c1) with (announceFilter c).
  destruct (announceFilter c) eqn:A.
  - match goal with
    | |- context [peekLoop a ?evs ?i ?k ?v] =>
        destruct (peekLoop_writes a evs i k v) as [[ws W] AF];
        destruct (peekLoop a evs i k v) as [[r c2] tv2]
    end.
    cbn [fst snd] in *.
    assert (R : snd (match r with
                     | Err err => (Err (errors_Wrap err "unable to peek"),
                                   set_textview c2 (Some tv2))
                     | _ => (r, set_textview c2 (Some tv2))
                     end) = set_textview c2 (Some tv2))
      by (destruct r; reflexivity).
    rewrite R. cbn [set_textview textview announceFilter].
    split; [|exact AF]. exists ws. now rewrite W.
  - match goal with
    | |- context [peekLoop a ?evs ?i ?k ?v] =>
        destruct (peekLoop_writes a evs i k v) as [[ws W] AF];
        destruct (peekLoop a evs i k v) as [[r c2] tv2]
    end.
    cbn [fst snd] in *.
    assert (R : snd (match r with
                     | Err err => (Err (errors_Wrap err "unable to peek"),
                                   set_textview c2 (Some tv2))
                     | _ => (r, set_textview c2 (Some tv2))
                     end) = set_textview c2 (Some tv2))
      by (destruct r; reflexivity).
    rewrite R. cbn [set_textview textview announceFilter].
    split; [|now rewrite AF]. exists ws. now rewrite W.
Qed.

End WriteFacts.

(** X5.  As long as no key sends a command, the loop of [peek] waits and
    leaves the command object alone, and what it does to the view is one
    write for every line that contains the filter, in the order in which
    the lines arrive.  The text of a line carries the count the producer
    formatted; the number in front of it is the value of the counter when
    the loop reads it, which the producer may have advanced since. *)
Theorem lines_arrive_in_order (action : Action) (evs : list PeekEvent)
        (i : nat) (c : Cmd) (tv : TextView) :
  firstCommand (tv_title tv) evs = None ->
  let r := peekLoop action evs i c tv in
  fst r = (Blocked, c)
  /\ snd r
     = fold_left Fprint
                 (map (fun l => viewLine action l ++ nl)
                      (filter (passes action) (stamped evs i)))
                 tv.
Proof.
  cbv zeta. intros F. rewrite (peekLoop_lines action evs i c tv F).
  split; reflexivity.
Qed.

Lemma lines_arrive_in_order_witness :
  let action := mkAction StepPeek "orders" "2" EmptyString EmptyString in
  let evs := [Advance; DataLine 1 "12:00:01"; KeyPress "x" "12:00:02";
              Advance; DataLine 2 "12:00:03"] in
  let r := peekLoop action evs 1 New (SetTitle NewTextView "orders") in
  fst r = (Blocked, New)
  /\ tv_text (snd r)
     = "3: [gray:black]12:00:03[-:-] orders: line [green:gray]2[-:-]" ++ nl.
Proof.
  cbv zeta.
  destruct (lines_arrive_in_order
              (mkAction StepPeek "orders" "2" EmptyString EmptyString)
              [Advance; DataLine 1 "12:00:01"; KeyPress "x" "12:00:02";
               Advance; DataLine 2 "12:00:03"]
              1 New (SetTitle NewTextView "orders") eq_refl) as [A B].
  split; [exact A|]. rewrite B. vm_compute. reflexivity.
Defined.

(** X6.  A line the loop writes into a view without a cap whose text ends a
    line is, for a later rescan, one line of three fields, as long as the
    time has no space and neither the time nor the component has a
    newline: the counter with its colon, the time in its colour tags, and
    the data with its marks.  The rescan of the text read back from the
    view is then the rescan of what was there before, followed by this
    line with nothing but its data rewritten. *)
Theorem written_line_fields (action : Action) (n i : nat)
        (now search prev : string) (tv : TextView) :
  let data := PeekComponent action ++ ": line " ++ dec n in
  let content :=
    highlightNew (PeekSearch action)
      (if negb (PeekFilter action =? EmptyString)
       then Replace data (PeekFilter action)
                    ("[green:gray]" ++ PeekFilter action ++ "[-:-]")
       else data) in
  let line := (dec i ++ ":") ++ sp ++ ("[gray:black]" ++ now ++ "[-:-]")
              ++ sp ++ content in
  occurs space now = false ->
  occurs newline now = false ->
  occurs newline (PeekComponent action) = false ->
  Contains data (PeekFilter action) = true ->
  tv_maxLines tv = 0 ->
  endsLine (tv_text tv) ->
  tv_text (dataLine action n i tv now) = tv_text tv ++ line ++ nl
  /\ SplitN line space 3
     = [dec i ++ ":"; "[gray:black]" ++ now ++ "[-:-]"; content]
  /\ updatedData search prev (GetText (dataLine action n i tv now))
     = updatedData search prev (GetText tv)
       ++ (dec i ++ ":") ++ sp ++ ("[gray:black]" ++ now ++ "[-:-]") ++ sp
       ++ updatedContent search prev content ++ nl.
Proof.
  cbv zeta. intros Os On Oc C Cap E.
  fold (decorated action n).
  assert (F : SplitN ((dec i ++ ":") ++ sp
                      ++ ("[gray:black]" ++ now ++ "[-:-]")
                      ++ sp ++ decorated action n) space 3
              = [dec i ++ ":"; "[gray:black]" ++ now ++ "[-:-]";
                 decorated action n]).
  { apply SplitN3_build.
    - rewrite occurs_app, dec_no_space. reflexivity.
    - rewrite !occurs_app, Os. reflexivity. }
  assert (L : occurs newline ((dec i ++ ":") ++ sp
                      ++ ("[gray:black]" ++ now ++ "[-:-]")
                      ++ sp ++ decorated action n) = false).
  { rewrite !occurs_app, dec_no_newline, On,
      (decorated_no_newline action n Oc C). reflexivity. }
  assert (W : tv_text (dataLine action n i tv now)
              = tv_text tv ++ ((dec i ++ ":") ++ sp
                      ++ ("[gray:black]" ++ now ++ "[-:-]")
                      ++ sp ++ decorated action n) ++ nl).
  { rewrite dataLine_cases. unfold passes. cbn [fst snd]. rewrite C.
    unfold Fprint. cbn [tv_text]. rewrite Cap. reflexivity. }
  split; [exact W|]. split; [exact F|].
  unfold GetText. rewrite W, !updatedData_readBack.
  set (line := (dec i ++ ":") ++ sp ++ ("[gray:black]" ++ now ++ "[-:-]")
               ++ sp ++ decorated action n) in *.
  assert (R : updatedData search prev (line ++ nl)
              = (dec i ++ ":") ++ sp ++ ("[gray:black]" ++ now ++ "[-:-]")
                ++ sp ++ updatedContent search prev (decorated action n)
                ++ nl).
  { unfold nl at 1. rewrite updatedData_join, updatedData_nil, append_nil_r.
    rewrite (updatedData_line search prev line L).
    unfold rescanLine. rewrite F.
    destruct (line =? EmptyString) eqn:Z.
    - apply eqb_empty in Z. rewrite Z in F. discriminate.
    - now rewrite !append_assoc. }
  destruct E as [E|[t E]]; rewrite E.
  - cbn [append]. rewrite updatedData_nil. exact R.
  - unfold nl at 1. rewrite append_assoc. cbn [append].
    rewrite updatedData_join, R.
    unfold nl at 2. now rewrite updatedData_join, updatedData_nil, append_nil_r.
Qed.

Lemma written_line_fields_witness :
  let action := mkAction StepPeek "orders" "line" "1" EmptyString in
  let tv := Fprint NewTextView (pauseLine false "12:00:00" ++ nl) in
  tv_text (dataLine action 12 13 tv "12:00:01")
  = tv_text tv
    ++ ("13:" ++ sp ++ "[gray:black]12:00:01[-:-]" ++ sp
        ++ "orders: [green:gray]line[-:-] [blue:gray]1[-:-]2") ++ nl
  /\ updatedData EmptyString "1"
                 (GetText (dataLine action 12 13 tv "12:00:01"))
     = updatedData EmptyString "1" (GetText tv)
       ++ "13:" ++ sp ++ "[gray:black]12:00:01[-:-]" ++ sp
       ++ "orders: [green:gray]line[-:-] 12" ++ nl.
Proof.
  cbv zeta.
  destruct (written_line_fields
              (mkAction StepPeek "orders" "line" "1" EmptyString) 12 13
              "12:00:01" EmptyString "1"
              (Fprint NewTextView (pauseLine false "12:00:00" ++ nl))
              eq_refl eq_refl eq_refl eq_refl eq_refl
              (or_intror (ex_intro _ (pauseLine false "12:00:00") eq_refl)))
    as [W [_ R]].
  split; [exact W | exact R].
Defined.



(** X8.  A filter round trip is announced once: the Peek action the Filter
    handler returns makes the Peek handler write the banner of the new
    filter into the view before anything else (the banner itself when
    neither the filter nor the time has a percent sign) and clear the
    flag, so that no later call writes it again. *)
Theorem filter_is_announced_once (Sprintf0 : string -> string)
        (sc1 sc2 : Script) (c : Cmd) (action : Action) :
  let newFilter := DisplayFilter (PeekFilter action) (form sc1) in
  let a1 := mkAction StepPeek (PeekComponent action) newFilter
                     EmptyString EmptyString in
  let c1 := snd (actionFilter (Some sc1) c action) in
  let c2 := snd (actionPeek Sprintf0 (Some sc2) c1 (Some a1)) in
  let before :=
    DisplayPeek (textview c) (PeekComponent action) (maxOutputLines c) in
  (forall s, occurs percent s = false -> Sprintf0 s = s) ->
  occurs percent newFilter = false ->
  occurs percent (now sc2) = false ->
  PeekComponent action <> EmptyString ->
  fst (actionFilter (Some sc1) c action) = Ok a1
  /\ (exists ws,
         textview c2
         = Some (fold_left Fprint ws
                   (Fprint before (filterLine newFilter (now sc2) ++ nl))))
  /\ announceFilter c2 = false.
Proof.
  cbv zeta. intros Fmt Pf Pt N. split; [reflexivity|].
  destruct (actionPeek_writes Sprintf0 sc2
              (snd (actionFilter (Some sc1) c action))
              (mkAction StepPeek (PeekComponent action)
                        (DisplayFilter (PeekFilter action) (form sc1))
                        EmptyString EmptyString) N eq_refl eq_refl)
    as [[ws W] A].
  split; [|exact A]. exists ws. rewrite W.
  cbn [PeekFilter PeekComponent].
  rewrite (Fmt _ (filterLine_no_percent _ _ Pf Pt)).
  unfold actionFilter, await. cbn [snd].
  destruct (negb _); reflexivity.
Qed.

Lemma filter_is_announced_once_witness :
  let c := mkCmd true (Some (mkTextView "orders" ("1: t old line" ++ nl) 0))
                 EmptyString false false MenuString 0 in
  let c2 := snd (actionPeek (fun s => s)
                   (Some (peeking "12:00:05" [KeyPress "q" "12:00:06"]))
                   (snd (actionFilter (Some (answering ["ERR"] OK)) c
                           (mkAction StepFilter "orders" EmptyString "foo"
                                     EmptyString)))
                   (Some (mkAction StepPeek "orders" "ERR" EmptyString
                                   EmptyString))) in
  option_map tv_text (textview c2)
  = Some (("1: t old line" ++ nl) ++ filterLine "ERR" "12:00:05" ++ nl)
  /\ announceFilter c2 = false.
Proof.
  cbv zeta.
  destruct (filter_is_announced_once (fun s => s)
              (answering ["ERR"] OK)
              (peeking "12:00:05" [KeyPress "q" "12:00:06"])
              (mkCmd true
                     (Some (mkTextView "orders" ("1: t old line" ++ nl) 0))
                     EmptyString false false MenuString 0)
              (mkAction StepFilter "orders" EmptyString "foo" EmptyString))
    as [_ [_ A]];
    [reflexivity | reflexivity | reflexivity | discriminate |].
  split; [vm_compute; reflexivity | exact A].
Defined.
